(** * Wordy: word/context extraction and result caching

    A shallow embedding of [src/main.ts] of the Wordy plugin: the per-category
    result cache ([SimpleWordCache], [EMPTY_CACHE]), the cache-or-fetch
    protocol ([getCacheOrFetch] and the three [process*] functions), the
    context extractor ([getSentenceUnderCursor], [getRootSelection]) and the
    result rendering ([createCommandModal], [createWordMenu],
    [createMenuForWords], the alliterative-synonym command and the
    "Clear cache" button).

    Conventions.
    - A JavaScript string is a [string]; each [ascii] stands for one UTF-16
      code unit below 256.  Indices and columns are [Z], lengths are [nat].
    - [undefined] is [None].
    - Objects that the program shares by reference live in an explicit
      heap, a [gmap loc Obj]; a reference is a [loc].
    - The host editor and the Datamuse client are collaborators of the
      plugin: the editor is a record of what its queries answer, the client
      a record of oracles over an abstract [World]. *)

From Stdlib Require Import ZArith Ascii String DecimalString.
From stdpp Require Import gmap strings list.

Local Open Scope string_scope.
Local Open Scope list_scope.

(** ** JavaScript primitives used by the plugin *)

Module Js.

(** [text[index]]: the one-unit string at [index], [undefined] outside the
    string. *)
Definition index (text : string) (i : Z) : option string :=
  if (i <? 0)%Z then None
  else match String.get (Z.to_nat i) text with
       | Some c => Some (String c EmptyString)
       | None => None
       end.

(** [Array.prototype.includes] on an array of strings. *)
Definition includes (xs : list string) (x : option string) : bool :=
  match x with
  | Some s => existsb (String.eqb s) xs
  | None => false
  end.

(** The character class [\s], on code units below 256: tab, line feed,
    vertical tab, form feed, carriage return, space, no-break space. *)
Definition isSpace (c : ascii) : bool :=
  let n := N_of_ascii c in
  ((9 <=? n)%N && (n <=? 13)%N) || (n =? 32)%N || (n =? 160)%N.

(** [String(x)] where [x] is a string or [undefined]. *)
Definition toString (x : option string) : string :=
  match x with
  | Some s => s
  | None => "undefined"
  end.

(** [/\s/.test(x)]: some code unit of [String(x)] is white space. *)
Definition test_space (x : option string) : bool :=
  existsb isSpace (list_ascii_of_string (toString x)).

(** Argument conversion of [substring]: clamp into [0 .. len]. *)
Definition clamp (len : nat) (i : Z) : nat :=
  Z.to_nat (Z.min (Z.max i 0) (Z.of_nat len)).

(** [s.substring(a, b)]: both arguments are clamped, and swapped when
    [a > b]. *)
Definition substring (s : string) (a b : Z) : string :=
  let a' := clamp (String.length s) a in
  let b' := clamp (String.length s) b in
  let lo := Nat.min a' b' in
  let hi := Nat.max a' b' in
  string_of_list_ascii (take (hi - lo) (drop lo (list_ascii_of_string s))).

(** [xs.slice(0, e)]: a negative [e] counts from the end. *)
Definition slice0 {A} (xs : list A) (e : Z) : list A :=
  if (e <? 0)%Z then take (Z.to_nat (Z.of_nat (length xs) + e)) xs
  else take (Z.to_nat e) xs.

(** [s.split(" ")]: the pieces between the spaces; never empty. *)
Fixpoint split_space_aux (cur : list ascii) (s : list ascii) : list string :=
  match s with
  | [] => [string_of_list_ascii (rev cur)]
  | c :: s' =>
      if Ascii.eqb c " "%char
      then string_of_list_ascii (rev cur) :: split_space_aux [] s'
      else split_space_aux (c :: cur) s'
  end.

Definition split_space (s : string) : list string :=
  split_space_aux [] (list_ascii_of_string s).

(** Number to string, for an integer-valued number that a double holds
    exactly and prints in full: magnitude at most 2^53 (from 10^21 on the
    source prints the exponent form, which this does not give). *)
Definition numToString (z : Z) : string :=
  NilZero.string_of_int (Z.to_int z).

(** [s.toLowerCase()] on code units below 256: the Basic Latin and Latin-1
    capitals move up by 32. *)
Definition lowerChar (c : ascii) : ascii :=
  let n := N_of_ascii c in
  if ((65 <=? n)%N && (n <=? 90)%N)
     || ((192 <=? n)%N && (n <=? 222)%N && negb (n =? 215)%N)
  then ascii_of_N (n + 32) else c.

Definition toLowerCase (s : string) : string :=
  string_of_list_ascii (map lowerChar (list_ascii_of_string s)).

End Js.

(** ** The host editor

    What the plugin asks of the editor during one trigger.  The editor does
    not change while the plugin reads it. *)

Record EditorPosition := { line : Z; ch : Z }.

Record Editor := {
  getSelection : string;
  getCursor : EditorPosition;         (* [editor.getCursor()] *)
  getCursor_from : EditorPosition;    (* [editor.getCursor("from")] *)
  getCursor_to : EditorPosition;      (* [editor.getCursor("to")] *)
  wordAt : EditorPosition -> option (EditorPosition * EditorPosition);
  getLine : Z -> string;
  getRange : EditorPosition -> EditorPosition -> string
}.

(** ** Sentence extraction ([getSentenceUnderCursor], lines 214-245) *)

(** [const sentenceEndings = ['.', '!', '?']] *)
Definition sentenceEndings : list string := ["."; "!"; "?"].

(** The [while] loop of [findWordBoundaries].  [fuel] bounds the number of
    times the loop condition is evaluated; the second component of the result
    lists, in order, the indices at which [text] was read. *)
Fixpoint findWordBoundaries_loop (fuel : nat) (text : string) (direction : Z)
    (count index : Z) : option (Z * list Z) :=
  match fuel with
  | O => None
  | S fuel' =>
      if ((count <? 5)%Z && (0 <=? index)%Z
          && (index <? Z.of_nat (String.length text))%Z)
      then
        if Js.includes sentenceEndings (Js.index text index)
        then Some (index, [index])
        else
          let count' :=
            if Js.test_space (Js.index text index) then (count + 1)%Z else count in
          match findWordBoundaries_loop fuel' text direction count'
                  (index + direction)%Z with
          | Some (r, reads) => Some (r, index :: reads)
          | None => None
          end
      else Some (if (direction =? -1)%Z then (index + 1)%Z else index, [])
  end.

(** [findWordBoundaries(text, start, direction)]: [count = 0; index = start]. *)
Definition findWordBoundaries (text : string) (start direction : Z)
    : option (Z * list Z) :=
  findWordBoundaries_loop (S (String.length text)) text direction 0%Z start.

(** One code unit is a sentence ending / is in the class [[.!?\s]] of the
    trimming regex. *)
Definition isEnding (c : ascii) : bool :=
  Js.includes sentenceEndings (Some (String c EmptyString)).

Definition isTrimChar (c : ascii) : bool := isEnding c || Js.isSpace c.

Fixpoint dropLeading (l : list ascii) : list ascii :=
  match l with
  | [] => []
  | c :: l' => if isTrimChar c then dropLeading l' else l
  end.

(** [.replace(/^[.!?\s]+|[.!?\s]+$/g, '')]: the leading run is removed, then
    the trailing run of what is left. *)
Definition trimEnds (l : list ascii) : list ascii :=
  rev (dropLeading (rev (dropLeading l))).

Definition replace_trim (s : string) : string :=
  string_of_list_ascii (trimEnds (list_ascii_of_string s)).

(** The body of [getSentenceUnderCursor] once [line] has been read: the two
    scans, the substring and the trimming; with the indices read by the
    scans. *)
Definition sentenceOfLine_traced (line : string) (from_ch to_ch : Z)
    : option (string * list Z) :=
  match findWordBoundaries line from_ch (-1) with
  | None => None
  | Some (start, reads1) =>
      match findWordBoundaries line to_ch 1 with
      | None => None
      | Some (end_, reads2) =>
          Some (replace_trim (Js.substring line start end_), reads1 ++ reads2)
      end
  end.

Definition sentenceOfLine (line : string) (from_ch to_ch : Z) : option string :=
  fst <$> sentenceOfLine_traced line from_ch to_ch.

Definition getSentenceUnderCursor (editor : Editor) (from to : EditorPosition)
    : option string :=
  sentenceOfLine (getLine editor (line from)) (ch from) (ch to).

(** The column of [line] at which the extracted sentence begins: the start of
    the substring plus the length of the leading run that the regex removed.
    Used to carry a span of [line] over to the sentence. *)
Definition sentenceStart (line : string) (from_ch to_ch : Z) : option Z :=
  match findWordBoundaries line from_ch (-1), findWordBoundaries line to_ch 1 with
  | Some (start, _), Some (end_, _) =>
      let n := String.length line in
      let lo := Nat.min (Js.clamp n start) (Js.clamp n end_) in
      let sub := list_ascii_of_string (Js.substring line start end_) in
      Some (Z.of_nat (lo + (length sub - length (dropLeading sub))))
  | _, _ => None
  end.

(** The scan of [findWordBoundaries] seen on the list of code units it walks
    over ([l] starts at the first index read): the number of steps before the
    loop is left, and whether it is left at a sentence ending. *)
Fixpoint scan (count : Z) (l : list ascii) : nat * bool :=
  match l with
  | [] => (0, false)
  | c :: l' =>
      if (count <? 5)%Z then
        if isEnding c then (0, true)
        else
          let r := scan (if Js.isSpace c then (count + 1)%Z else count) l' in
          (S (fst r), snd r)
      else (0, false)
  end.

(** What extraction keeps of a line [before ++ c :: after] around a code unit
    [c] that the trimming leaves alone, when the span starts on [c] and ends
    [j] units later: [scan] bounds each side, then the runs of [isTrimChar]
    at the two outer ends go. *)
Definition keptBefore (before : list ascii) : list ascii :=
  let r := scan 0 (rev before) in
  dropLeading (rev (take (fst r + (if snd r then 1 else 0)) (rev before))).

Definition keptAfter (c : ascii) (after : list ascii) (j : nat) : list ascii :=
  let e :=
    if (j <=? length after)%nat
    then j + fst (scan 0 (drop j (c :: after)))
    else S (length after) in
  rev (dropLeading (rev (take (e - 1) after))).

(** ** The result cache ([SimpleWordCache], lines 42-56) *)

Module SimpleWordCache.

(** [map: Map<string, string[]>].  The key is [word[0]], which is
    [undefined] for an empty key list. *)
Record t := { map : gmap (option string) (list string) }.

(** [constructor() { this.map = new Map(); }] *)
Definition new : t := {| map := ∅ |}.

(** [return this.map.get(word[0]) || [];]  (a stored array is truthy, also
    when it is empty) *)
Definition get (this : t) (word : list string) : list string :=
  default [] (map this !! head word).

(** [this.map.set(word[0], results);] *)
Definition set (this : t) (word : list string) (results : list string) : t :=
  {| map := <[head word := results]> (map this) |}.

End SimpleWordCache.

(** ** Objects shared by reference *)

Definition loc := positive.

(** The two kinds of object the plugin keeps references to: a
    [SimpleWordCache] instance, and a [WordyCache] object
    ([{ [key: string]: WordyResultCache }]) whose properties hold references
    to cache instances. *)
Inductive Obj :=
  | ObjSimpleWordCache (c : SimpleWordCache.t)
  | ObjWordyCache (props : gmap string loc).

(** [cache.get(word)] and [cache.set(word, results)] through a reference;
    [None] is the [TypeError] of a call on something that is not a cache. *)
Definition cache_get (h : gmap loc Obj) (cache : loc) (word : list string)
    : option (list string) :=
  match h !! cache with
  | Some (ObjSimpleWordCache c) => Some (SimpleWordCache.get c word)
  | _ => None
  end.

Definition cache_set (h : gmap loc Obj) (cache : loc) (word results : list string)
    : option (gmap loc Obj) :=
  match h !! cache with
  | Some (ObjSimpleWordCache c) =>
      Some (<[cache := ObjSimpleWordCache (SimpleWordCache.set c word results)]> h)
  | _ => None
  end.

(** [caches[key]] where [caches] refers to a [WordyCache] object. *)
Definition wordy_prop (h : gmap loc Obj) (caches : loc) (key : string) : option loc :=
  match h !! caches with
  | Some (ObjWordyCache props) => props !! key
  | _ => None
  end.

(** Module initialisation: [const EMPTY_CACHE: WordyCache = { syn: new
    SimpleWordCache(), ant: new SimpleWordCache(), rhy: new SimpleWordCache() }]
    allocates three cache instances and one object, once; [EMPTY_CACHE] is
    the reference to that object. *)
Definition EMPTY_CACHE : loc := 4%positive.

Definition module_heap : gmap loc Obj :=
  <[4%positive := ObjWordyCache
      (<["syn" := 1%positive]> (<["ant" := 2%positive]> (<["rhy" := 3%positive]> ∅)))]>
  (<[3%positive := ObjSimpleWordCache SimpleWordCache.new]>
  (<[2%positive := ObjSimpleWordCache SimpleWordCache.new]>
  (<[1%positive := ObjSimpleWordCache SimpleWordCache.new]> ∅))).

(** ** Settings ([WordyPluginSettings], [DEFAULT_SETTINGS]) *)

Record WordyPluginSettings := {
  toggleEditorMenu : bool;
  toggleSynonymEditorMenu : bool;
  toggleAntonymEditorMenu : bool;
  toggleRhymeEditorMenu : bool;
  toggleSuggestionsEditorMenu : bool;
  editorMenuMaxResults : Z;
  suggestionsMaxResults : Z
}.

Definition DEFAULT_SETTINGS : WordyPluginSettings := {|
  toggleEditorMenu := true;
  toggleSynonymEditorMenu := true;
  toggleAntonymEditorMenu := true;
  toggleRhymeEditorMenu := true;
  toggleSuggestionsEditorMenu := true;
  editorMenuMaxResults := 15;
  suggestionsMaxResults := 10
|}.

(** ** What the plugin does to the outside *)

(** A call of the lexical client.  [alliterativeSynonyms] is declared on
    strings, but the command hands it whatever the destructuring produced,
    [undefined] included. *)
Inductive ApiCall :=
  | WordsSimilarTo (word : string)
  | WordsOppositeTo (word : string) (strict : bool)
  | WordsThatRhymeWith (word : string)
  | AlliterativeSynonyms (priorWord rootWord : option string).

(** The function handed to [SearchableWordsModal] as [replaceFn]. *)
Inductive ReplaceFn :=
  | ReplaceRangeAt (from to : EditorPosition)
      (* [(selectedWord) => editor.replaceRange(selectedWord, from, to)] *)
  | ReplaceSelection.
      (* [(selectedWord) => editor.replaceSelection(`${selectedWord}`)] *)

Inductive UiEvent :=
  | Notice (message : string)
  | ModalOpened (words : list string) (replaceFn : ReplaceFn).

(** What a click on a menu item runs. *)
Inductive ClickAction :=
  | ReplaceRange (word : string) (from to : EditorPosition)
  | OpenModal (words : list string) (replaceFn : ReplaceFn).

Inductive MenuEntry :=
  | MenuItem (title : string) (onClick : option ClickAction)
  | Separator.

(** ** The plugin *)

Section Plugin.

(** The lexical client ([./DatamuseApi]): each function answers from the
    state of the outside world, with a list of words or a failure. *)
Context {World : Type}.

Record DatamuseApi := {
  wordsSimilarTo : string -> World -> option (list string) * World;
  wordsOppositeTo : string -> bool -> World -> option (list string) * World;
  wordsThatRhymeWith : string -> World -> option (list string) * World;
  alliterativeSynonyms :
    option string -> option string -> World -> option (list string) * World
}.

Variable datamuseApi : DatamuseApi.

(** The plugin instance with what surrounds it: the heap, the fields
    [caches] and [settings], the outside world, and the record of the
    client calls issued and of the notices and pickers shown. *)
Record State := {
  heap : gmap loc Obj;
  caches : loc;
  settings : WordyPluginSettings;
  world : World;
  calls : list ApiCall;
  ui : list UiEvent
}.

(** [caches: WordyCache = EMPTY_CACHE; settings = DEFAULT_SETTINGS] *)
Definition new_plugin (w : World) : State := {|
  heap := module_heap;
  caches := EMPTY_CACHE;
  settings := DEFAULT_SETTINGS;
  world := w;
  calls := [];
  ui := []
|}.

(** A task of the plugin: it returns a value or throws ([None]), and
    leaves a state. *)
Definition M (A : Type) : Type := State -> option A * State.

Definition ret {A} (a : A) : M A := fun st => (Some a, st).

Definition throw {A} : M A := fun st => (None, st).

Definition bind {A B} (m : M A) (k : A -> M B) : M B :=
  fun st =>
    match m st with
    | (Some a, st') => k a st'
    | (None, st') => (None, st')
    end.

Definition lift_option {A} (o : option A) : M A :=
  match o with
  | Some a => ret a
  | None => throw
  end.

Notation "'let!' x ':=' m 'in' k" := (bind m (fun x => k))
  (at level 10, x name, m at level 100, k at level 200).

(** [await this.datamuseApi.f(...)]: the call is recorded, the world
    answers. *)
Definition call_api (call : ApiCall)
    (f : World -> option (list string) * World) : M (list string) :=
  fun st =>
    let '(r, w') := f (world st) in
    (r, {| heap := heap st; caches := caches st; settings := settings st;
           world := w'; calls := calls st ++ [call]; ui := ui st |}).

Definition emit (e : UiEvent) : M unit :=
  fun st =>
    (Some tt, {| heap := heap st; caches := caches st; settings := settings st;
                 world := world st; calls := calls st; ui := ui st ++ [e] |}).

Definition m_cache_get (cache : loc) (word : list string) : M (list string) :=
  fun st => (cache_get (heap st) cache word, st).

Definition m_cache_set (cache : loc) (word results : list string) : M unit :=
  fun st =>
    match cache_set (heap st) cache word results with
    | Some h' =>
        (Some tt, {| heap := h'; caches := caches st; settings := settings st;
                     world := world st; calls := calls st; ui := ui st |})
    | None => (None, st)
    end.

(** [this.caches[key]] *)
Definition this_caches (key : string) : M loc :=
  fun st => (wordy_prop (heap st) (caches st) key, st).

(** [getCacheOrFetch], lines 203-212. *)
Definition getCacheOrFetch (cache : loc) (word : string)
    (fetchFn : string -> M (list string)) : M (list string) :=
  let! cached := m_cache_get cache [word] in
  if (0 <? length cached)%nat then ret cached
  else
    let! results := fetchFn word in
    let! _ := m_cache_set cache [word] results in
    ret results.

(** [processSynonyms], [processAntonyms], [processRhymes], lines 185-201. *)
Definition processSynonyms (word : string) : M (list string) :=
  let! cache := this_caches "syn" in
  getCacheOrFetch cache word
    (fun word => call_api (WordsSimilarTo word) (wordsSimilarTo datamuseApi word)).

Definition processAntonyms (word : string) : M (list string) :=
  let! cache := this_caches "ant" in
  getCacheOrFetch cache word
    (fun word =>
       call_api (WordsOppositeTo word true) (wordsOppositeTo datamuseApi word true)).

Definition processRhymes (word : string) : M (list string) :=
  let! cache := this_caches "rhy" in
  getCacheOrFetch cache word
    (fun word =>
       call_api (WordsThatRhymeWith word) (wordsThatRhymeWith datamuseApi word)).

(** The three cached categories. *)
Inductive Category := Syn | Ant | Rhy.

Definition category_key (c : Category) : string :=
  match c with Syn => "syn" | Ant => "ant" | Rhy => "rhy" end.

Definition process (c : Category) : string -> M (list string) :=
  match c with
  | Syn => processSynonyms
  | Ant => processAntonyms
  | Rhy => processRhymes
  end.

(** The client call that the fetch function of each category issues. *)
Definition category_call (c : Category) (word : string) : ApiCall :=
  match c with
  | Syn => WordsSimilarTo word
  | Ant => WordsOppositeTo word true
  | Rhy => WordsThatRhymeWith word
  end.

(** The "Clear cache" button, lines 510-513:
    [this.plugin.caches = EMPTY_CACHE; new Notice("Cache cleared.");] *)
Definition clearCache : M unit :=
  fun st =>
    emit (Notice "Cache cleared.")
      {| heap := heap st; caches := EMPTY_CACHE; settings := settings st;
         world := world st; calls := calls st; ui := ui st |}.

(** [getRootSelection], lines 247-266. *)
Record RootSelection := {
  word : string;
  from : EditorPosition;
  to : EditorPosition;
  sentence : string
}.

Definition getRootSelection (editor : Editor) : option RootSelection :=
  let selection := getSelection editor in
  if negb (String.eqb selection "") then
    let from := getCursor_from editor in
    let to := getCursor_to editor in
    match getSentenceUnderCursor editor from to with
    | Some sentence =>
        Some {| word := selection; from := from; to := to; sentence := sentence |}
    | None => None
    end
  else
    match wordAt editor (getCursor editor) with
    | None =>
        Some {| word := ""; from := {| line := 0; ch := 0 |};
                to := {| line := 0; ch := 0 |}; sentence := "" |}
    | Some (sFrom, sTo) =>
        let sWord := getRange editor sFrom sTo in
        match getSentenceUnderCursor editor sFrom sTo with
        | Some sSentence =>
            Some {| word := sWord; from := sFrom; to := sTo; sentence := sSentence |}
        | None => None
        end
    end.

(** [createCommandModal], lines 268-282. *)
Definition createCommandModal (editor : Editor)
    (processWord : string -> M (list string)) : M unit :=
  let! r := lift_option (getRootSelection editor) in
  let! results := processWord (word r) in
  if (length results =? 0)%nat then emit (Notice "Oops — No results found.")
  else emit (ModalOpened results (ReplaceRangeAt (from r) (to r))).

(** [createMenuForWords], lines 290-322.  [menu.addItem] and
    [menu.addSeparator] append to the menu. *)
Definition createMenuForWords (st : State) (menu : list MenuEntry)
    (words : list string) (from to : EditorPosition) : list MenuEntry :=
  let maxResults := editorMenuMaxResults (settings st) in
  let menu1 :=
    if (length words =? 0)%nat
    then menu ++ [MenuItem "No results found." None]
    else menu in
  let menu2 :=
    foldl (fun menu word => menu ++ [MenuItem word (Some (ReplaceRange word from to))])
      menu1 (Js.slice0 words maxResults) in
  if (maxResults <? Z.of_nat (length words))%Z then
    (menu2 ++ [Separator])
      ++ [MenuItem
            ("More... (" ++ Js.numToString (Z.of_nat (length words) - maxResults) ++ ")")
            (Some (OpenModal words (ReplaceRangeAt from to)))]
  else menu2.

(** [createWordMenu], lines 284-288. *)
Definition createWordMenu (menu : list MenuEntry) (editor : Editor)
    (processWord : string -> string -> M (list string)) : M (list MenuEntry) :=
  let! r := lift_option (getRootSelection editor) in
  let! results := processWord (word r) (sentence r) in
  fun st => (Some (createMenuForWords st menu results (from r) (to r)), st).

(** [x != ""] for [x] a string or [undefined]: [undefined] is loosely equal
    to [null] and [undefined] only. *)
Definition loose_neq_empty (x : option string) : bool :=
  match x with
  | Some s => negb (String.eqb s "")
  | None => true
  end.

(** The "wordy-asyn" command, lines 156-178. *)
Definition alliterativeSynonymsCommand (editor : Editor) : M unit :=
  let parts := Js.split_space (getSelection editor) in
  let priorWord := parts !! 0%nat in
  let rootWord := parts !! 1%nat in
  if loose_neq_empty rootWord then
    let! alliterativeSynonyms_ :=
      call_api (AlliterativeSynonyms priorWord rootWord)
        (alliterativeSynonyms datamuseApi priorWord rootWord) in
    if (length alliterativeSynonyms_ =? 0)%nat
    then emit (Notice "Oops — No rhymes found.")
    else emit (ModalOpened alliterativeSynonyms_ ReplaceSelection)
  else emit (Notice "Oops — Select a word first.").

End Plugin.

Arguments DatamuseApi World : clear implicits.
Arguments State World : clear implicits.
Arguments M World A : clear implicits.

(** ** The searchable picker ([SearchableWordsModal], lines 392-421) *)

(** [s.includes(sub)] on the code units: [sub] starts at some position of
    [s]. *)
Fixpoint starts_with (sub s : list ascii) : bool :=
  match sub, s with
  | [], _ => true
  | _ :: _, [] => false
  | a :: sub', b :: s' => Ascii.eqb a b && starts_with sub' s'
  end.

Fixpoint includes_units (s sub : list ascii) : bool :=
  starts_with sub s
  || match s with
     | [] => false
     | _ :: s' => includes_units s' sub
     end.

Definition string_includes (s sub : string) : bool :=
  includes_units (list_ascii_of_string s) (list_ascii_of_string sub).

(** What a call of a [replaceFn], or a click on a direct menu entry, does to
    the document. *)
Inductive EditorEdit :=
  | EditReplaceRange (text : string) (from to : EditorPosition)
  | EditReplaceSelection (text : string).

Definition call_replaceFn (f : ReplaceFn) (selectedWord : string) : EditorEdit :=
  match f with
  | ReplaceRangeAt from to => EditReplaceRange selectedWord from to
  | ReplaceSelection => EditReplaceSelection selectedWord
  end.

Module SearchableWordsModal.

(** [constructor(app, words, replaceFn)] *)
Record t := { words : list string; replaceFn : ReplaceFn }.

(** [this.words.filter((word) =>
      word.toLowerCase().includes(query.toLowerCase()))] *)
Definition getSuggestions (this : t) (query : string) : list string :=
  List.filter
    (fun word => string_includes (Js.toLowerCase word) (Js.toLowerCase query))
    (words this).

(** [this.replaceFn(word)] *)
Definition onChooseSuggestion (this : t) (word : string) : EditorEdit :=
  call_replaceFn (replaceFn this) word.

End SearchableWordsModal.

(** ** Sessions

    What can happen to a plugin instance, one event after the other: a
    lookup, one of the three commands or one category of the editor menu on
    some editor, the alliterative command, the "Clear cache" button, and a
    change of the settings.  Each flow runs to its end before the next event
    starts; flows that overlap are the subject of "Lookups in flight"
    below. *)

Section Session.

Context {World : Type}.
Variable datamuseApi : @DatamuseApi World.

Inductive Event :=
  | EvProcess (c : Category) (w : string)
  | EvCommand (c : Category) (editor : Editor)
  | EvMenu (c : Category) (editor : Editor)
  | EvAlliterative (editor : Editor)
  | EvClearCache
  | EvSettings (s : WordyPluginSettings).

Definition run_event (e : Event) (st : @State World) : @State World :=
  match e with
  | EvProcess c w => snd (process datamuseApi c w st)
  | EvCommand c editor =>
      snd (createCommandModal editor (process datamuseApi c) st)
  | EvMenu c editor =>
      snd (createWordMenu [] editor (fun w _ => process datamuseApi c w) st)
  | EvAlliterative editor => snd (alliterativeSynonymsCommand datamuseApi editor st)
  | EvClearCache => snd (clearCache st)
  | EvSettings s =>
      {| heap := heap st; caches := caches st; settings := s;
         world := world st; calls := calls st; ui := ui st |}
  end.

Definition run_events (es : list Event) (st : @State World) : @State World :=
  foldl (fun st e => run_event e st) st es.

End Session.

(** The cache instance of each category in the module's heap. *)
Definition category_loc (c : Category) : loc :=
  match c with Syn => 1%positive | Ant => 2%positive | Rhy => 3%positive end.

(** The number of white-space code units of a list. *)
Definition count_spaces (l : list ascii) : nat :=
  length (List.filter Js.isSpace l).

(** The client function behind the fetch function of each category. *)
Definition category_oracle {World : Type} (api : @DatamuseApi World)
    (c : Category) (w : string) : World -> option (list string) * World :=
  match c with
  | Syn => wordsSimilarTo api w
  | Ant => wordsOppositeTo api w true
  | Rhy => wordsThatRhymeWith api w
  end.

(** The shape of the heap that the module sets up: [caches] refers to
    [EMPTY_CACHE], that object is as the module built it, and the three
    references in it lead to cache instances. *)
Definition module_shape {World : Type} (st : @State World) : Prop :=
  caches st = EMPTY_CACHE
  /\ heap st !! EMPTY_CACHE = module_heap !! EMPTY_CACHE
  /\ forall c, exists cache, heap st !! category_loc c = Some (ObjSimpleWordCache cache).

(** ** Lookups in flight

    An [async] function runs until an [await] that has to wait for the
    outside, and goes on when the answer is there; other handlers of the
    plugin run in between.  A process call waits in one place, at
    [await fetchFn(word)] (line 209), and the alliterative command at its
    client call (line 160).  The state below is the plugin instance with the
    calls that wait. *)

(** What the caller of a process call does with the list it returns:
    nothing that reaches the plugin instance (a bare call, and the menu flow,
    whose entries go to the menu of the event), or the rest of
    [createCommandModal] (lines 271-281). *)
Inductive Continuation :=
  | ThenNothing
  | ThenCommandModal (from to : EditorPosition).

(** A call that waits: a [getCacheOrFetch] with its arguments (the category
    stands for the fetch function) and its caller, or the alliterative
    command with the two pieces of the selection. *)
Inductive Pending :=
  | PendingLookup (c : Category) (cache : loc) (w : string) (k : Continuation)
  | PendingAlliterative (priorWord rootWord : option string).

(** Whether a waiting call will store into the entry of [w] in [cache]. *)
Definition waits_for (cache : loc) (w : string) (p : Pending) : bool :=
  match p with
  | PendingLookup _ cache' w' _ => Pos.eqb cache' cache && String.eqb w' w
  | PendingAlliterative _ _ => false
  end.

Section InFlight.

Context {World : Type}.
Variable datamuseApi : @DatamuseApi World.

Record Async := {
  now : @State World;
  waiting : list Pending
}.

Definition async_new (w : World) : Async :=
  {| now := new_plugin w; waiting := [] |}.

Definition no_lookup_waits (cache : loc) (w : string) (a : Async) : bool :=
  forallb (fun p => negb (waits_for cache w p)) (waiting a).

Definition with_heap (h : gmap loc Obj) (st : @State World) : @State World :=
  {| heap := h; caches := caches st; settings := settings st;
     world := world st; calls := calls st; ui := ui st |}.

Definition with_world (w : World) (st : @State World) : @State World :=
  {| heap := heap st; caches := caches st; settings := settings st;
     world := w; calls := calls st; ui := ui st |}.

Definition with_call (call : ApiCall) (st : @State World) : @State World :=
  {| heap := heap st; caches := caches st; settings := settings st;
     world := world st; calls := calls st ++ [call]; ui := ui st |}.

(** The rest of the caller, once the list is there. *)
Definition continue_with (k : Continuation) (results : list string)
    (st : @State World) : @State World :=
  match k with
  | ThenNothing => st
  | ThenCommandModal from to =>
      if (length results =? 0)%nat
      then snd (emit (Notice "Oops — No results found.") st)
      else snd (emit (ModalOpened results (ReplaceRangeAt from to)) st)
  end.

(** A process call up to its [await]: [this.caches[key]] and [cache.get]
    run at once; a hit returns to the caller; otherwise the fetch function
    is called, which sends the request, and the call waits.  A call that
    throws changes nothing. *)
Definition lookup_start (c : Category) (w : string) (k : Continuation)
    (a : Async) : Async :=
  match wordy_prop (heap (now a)) (caches (now a)) (category_key c) with
  | None => a
  | Some cache =>
      match cache_get (heap (now a)) cache [w] with
      | None => a
      | Some cached =>
          if (0 <? length cached)%nat
          then {| now := continue_with k cached (now a); waiting := waiting a |}
          else {| now := with_call (category_call c w) (now a);
                  waiting := waiting a ++ [PendingLookup c cache w k] |}
      end
  end.

(** The three commands and the menu flow read the target word, then call
    process. *)
Definition command_start (c : Category) (editor : Editor) (a : Async) : Async :=
  match getRootSelection editor with
  | Some r => lookup_start c (word r) (ThenCommandModal (from r) (to r)) a
  | None => a
  end.

Definition menu_start (c : Category) (editor : Editor) (a : Async) : Async :=
  match getRootSelection editor with
  | Some r => lookup_start c (word r) ThenNothing a
  | None => a
  end.

(** The "wordy-asyn" command up to its [await], lines 156-162. *)
Definition alliterative_start (editor : Editor) (a : Async) : Async :=
  let parts := Js.split_space (getSelection editor) in
  let priorWord := parts !! 0%nat in
  let rootWord := parts !! 1%nat in
  if loose_neq_empty rootWord then
    {| now := with_call (AlliterativeSynonyms priorWord rootWord) (now a);
       waiting := waiting a ++ [PendingAlliterative priorWord rootWord] |}
  else
    {| now := snd (emit (Notice "Oops — Select a word first.") (now a));
       waiting := waiting a |}.

(** The outside answers the [i]-th waiting call, which runs to its end: a
    lookup stores the list with [cache.set] in the cache it was called
    with, whatever that entry holds by now, and returns it to its caller
    (lines 210-211); a failed request makes the call throw. *)
Definition answer (i : nat) (a : Async) : Async :=
  match waiting a !! i with
  | None => a
  | Some (PendingLookup c cache w k) =>
      match category_oracle datamuseApi c w (world (now a)) with
      | (Some results, w') =>
          match cache_set (heap (now a)) cache [w] results with
          | Some h' =>
              {| now := continue_with k results (with_heap h' (with_world w' (now a)));
                 waiting := delete i (waiting a) |}
          | None =>
              {| now := with_world w' (now a); waiting := delete i (waiting a) |}
          end
      | (None, w') =>
          {| now := with_world w' (now a); waiting := delete i (waiting a) |}
      end
  | Some (PendingAlliterative priorWord rootWord) =>
      match alliterativeSynonyms datamuseApi priorWord rootWord (world (now a)) with
      | (Some results, w') =>
          {| now :=
               if (length results =? 0)%nat
               then snd (emit (Notice "Oops — No rhymes found.") (with_world w' (now a)))
               else snd (emit (ModalOpened results ReplaceSelection)
                           (with_world w' (now a)));
             waiting := delete i (waiting a) |}
      | (None, w') =>
          {| now := with_world w' (now a); waiting := delete i (waiting a) |}
      end
  end.

(** What can happen to a plugin instance when calls overlap: a flow starts,
    a waiting call is answered, the "Clear cache" button, a change of the
    settings. *)
Inductive AsyncEvent :=
  | AsProcess (c : Category) (w : string)
  | AsCommand (c : Category) (editor : Editor)
  | AsMenu (c : Category) (editor : Editor)
  | AsAlliterative (editor : Editor)
  | AsAnswer (i : nat)
  | AsClearCache
  | AsSettings (s : WordyPluginSettings).

Definition run_async_event (e : AsyncEvent) (a : Async) : Async :=
  match e with
  | AsProcess c w => lookup_start c w ThenNothing a
  | AsCommand c editor => command_start c editor a
  | AsMenu c editor => menu_start c editor a
  | AsAlliterative editor => alliterative_start editor a
  | AsAnswer i => answer i a
  | AsClearCache => {| now := snd (clearCache (now a)); waiting := waiting a |}
  | AsSettings s =>
      {| now :=
           {| heap := heap (now a); caches := caches (now a); settings := s;
              world := world (now a); calls := calls (now a); ui := ui (now a) |};
         waiting := waiting a |}
  end.

Definition run_async (es : list AsyncEvent) (a : Async) : Async :=
  foldl (fun a e => run_async_event e a) a es.

End InFlight.

Arguments Async World : clear implicits.

(** Every lookup that waits was called with the cache instance of its
    category. *)
Definition waiting_shape (ps : list Pending) : Prop :=
  Forall
    (fun p =>
       match p with
       | PendingLookup c cache _ _ => cache = category_loc c
       | PendingAlliterative _ _ => True
       end) ps.

(** The shape that every state has that a fresh plugin reaches. *)
Definition async_shape {World : Type} (a : Async World) : Prop :=
  module_shape (now a) /\ waiting_shape (waiting a).

(** The map of the cache instance of a category has an entry for a word,
    and the entry is the list [r]. *)
Definition entry_is {World : Type} (a : Async World) (cat : Category)
    (w : string) (r : list string) : Prop :=
  exists c, heap (now a) !! category_loc cat = Some (ObjSimpleWordCache c)
            /\ SimpleWordCache.map c !! Some w = Some r.

(** * Properties *)

(** ** Strings as lists of code units *)

Lemma get_list_ascii (s : string) (i : nat) :
  String.get i s = list_ascii_of_string s !! i.
Proof.
  revert i. induction s as [|c s IH]; intros [|i]; simpl; auto.
Qed.

Lemma length_list_ascii (s : string) :
  length (list_ascii_of_string s) = String.length s.
Proof. induction s; simpl; auto. Qed.

Lemma length_string_of_list_ascii (l : list ascii) :
  String.length (string_of_list_ascii l) = length l.
Proof. induction l; simpl; auto. Qed.

Lemma index_in_range (text : string) (i : Z) :
  (0 <= i < Z.of_nat (String.length text))%Z ->
  exists c, list_ascii_of_string text !! Z.to_nat i = Some c
            /\ Js.index text i = Some (String c EmptyString).
Proof.
  intros Hi. unfold Js.index.
  destruct (Z.ltb_spec i 0); [lia|].
  rewrite get_list_ascii.
  destruct (list_ascii_of_string text !! Z.to_nat i) as [c|] eqn:E.
  - exists c. auto.
  - apply lookup_ge_None in E. rewrite length_list_ascii in E. lia.
Qed.

Lemma test_space_unit (c : ascii) :
  Js.test_space (Some (String c EmptyString)) = Js.isSpace c.
Proof. unfold Js.test_space. simpl. apply orb_false_r. Qed.

(** ** The boundary scan: termination, bounds, and what it computes *)

(** Every index the loop reads lies inside the text, whatever the direction,
    the starting index and the fuel. *)
Lemma loop_reads_in_range fuel text direction :
  forall count index r reads,
    findWordBoundaries_loop fuel text direction count index = Some (r, reads) ->
    Forall (fun i => (0 <= i < Z.of_nat (String.length text))%Z) reads.
Proof.
  induction fuel as [|fuel IH]; intros count index r reads; simpl; [discriminate|].
  destruct ((count <? 5)%Z && (0 <=? index)%Z
            && (index <? Z.of_nat (String.length text))%Z) eqn:G.
  - assert (0 <= index < Z.of_nat (String.length text))%Z as Hin.
    { apply andb_prop in G as [G G3]. apply andb_prop in G as [_ G2]. lia. }
    destruct (Js.includes sentenceEndings (Js.index text index)).
    + intros [= <- <-]. repeat constructor; lia.
    + destruct (findWordBoundaries_loop fuel text direction _ _)
        as [[r' reads']|] eqn:E; [|discriminate].
      intros [= <- <-]. constructor; [lia|]. eapply IH, E.
  - intros [= <- <-]. constructor.
Qed.

(** Outside the text the loop body never runs. *)
Lemma loop_outside fuel text direction count index :
  (index < 0 \/ Z.of_nat (String.length text) <= index)%Z ->
  findWordBoundaries_loop (S fuel) text direction count index
  = Some (if (direction =? -1)%Z then (index + 1)%Z else index, []).
Proof.
  intros H. simpl.
  destruct ((count <? 5)%Z && (0 <=? index)%Z
            && (index <? Z.of_nat (String.length text))%Z) eqn:G; [|reflexivity].
  apply andb_prop in G as [G G3]. apply andb_prop in G as [_ G2]. lia.
Qed.

Lemma loop_guard (text : string) (count index : Z) :
  (0 <= index < Z.of_nat (String.length text))%Z ->
  ((count <? 5)%Z && (0 <=? index)%Z && (index <? Z.of_nat (String.length text))%Z)
  = (count <? 5)%Z.
Proof.
  intros H.
  destruct (Z.leb_spec 0 index), (Z.ltb_spec index (Z.of_nat (String.length text)));
    try lia; now rewrite ?andb_true_r.
Qed.

(** The forward scan ([direction = 1]) from an index inside the text or at
    its end returns, and moves by the steps of [scan] over the rest of the
    text. *)
Lemma loop_forward (text : string) (fuel : nat) :
  forall count index,
    (0 <= index <= Z.of_nat (String.length text))%Z ->
    (Z.of_nat (String.length text) - index < Z.of_nat fuel)%Z ->
    exists reads,
      findWordBoundaries_loop fuel text 1 count index
      = Some ((index + Z.of_nat
                 (fst (scan count (drop (Z.to_nat index) (list_ascii_of_string text)))))%Z,
              reads).
Proof.
  induction fuel as [|fuel IH]; intros count index Hi Hf; [lia|].
  destruct (Z.eq_dec index (Z.of_nat (String.length text))) as [He|Hne].
  - rewrite loop_outside by lia.
    rewrite drop_ge by (rewrite length_list_ascii; lia).
    simpl. exists []. do 2 f_equal. lia.
  - destruct (index_in_range text index) as (c & Hc & Hidx); [lia|].
    rewrite (drop_S _ _ _ Hc). simpl. rewrite loop_guard by lia. rewrite Hidx.
    change (Js.includes sentenceEndings (Some (String c EmptyString))) with (isEnding c).
    rewrite test_space_unit.
    destruct (count <? 5)%Z.
    + destruct (isEnding c).
      * exists [index]. simpl. do 2 f_equal. lia.
      * destruct (IH (if Js.isSpace c then (count + 1)%Z else count) (index + 1)%Z)
          as [reads E]; [lia|lia|].
        rewrite E. exists (index :: reads). simpl.
        replace (Z.to_nat (index + 1)) with (S (Z.to_nat index)) by lia.
        do 2 f_equal. lia.
    + exists []. simpl. do 2 f_equal. lia.
Qed.

(** The backward scan ([direction = -1]) from an index inside the text (or
    from [-1]) returns: it walks the text before the index from right to
    left, and adds one unless it stopped on a sentence ending. *)
Lemma loop_backward (text : string) (fuel : nat) :
  forall count index,
    (-1 <= index < Z.of_nat (String.length text))%Z ->
    (index + 1 < Z.of_nat fuel)%Z ->
    exists reads,
      findWordBoundaries_loop fuel text (-1) count index
      = Some (let r := scan count
                         (rev (take (Z.to_nat (index + 1)) (list_ascii_of_string text))) in
              if snd r then (index - Z.of_nat (fst r))%Z
              else (index - Z.of_nat (fst r) + 1)%Z,
              reads).
Proof.
  induction fuel as [|fuel IH]; intros count index Hi Hf; [lia|].
  destruct (Z.eq_dec index (-1)%Z) as [He|Hne].
  - subst index. rewrite loop_outside by lia. simpl. exists []. reflexivity.
  - destruct (index_in_range text index) as (c & Hc & Hidx); [lia|].
    replace (Z.to_nat (index + 1)) with (S (Z.to_nat index)) by lia.
    rewrite (take_S_r _ _ _ Hc), rev_app_distr. simpl.
    rewrite loop_guard by lia. rewrite Hidx.
    change (Js.includes sentenceEndings (Some (String c EmptyString))) with (isEnding c).
    rewrite test_space_unit.
    destruct (count <? 5)%Z.
    + destruct (isEnding c).
      * exists [index]. simpl. do 2 f_equal. lia.
      * destruct (IH (if Js.isSpace c then (count + 1)%Z else count) (index + -1)%Z)
          as [reads E]; [lia|lia|].
        rewrite E. exists (index :: reads). simpl.
        replace (Z.to_nat (index + -1 + 1)) with (Z.to_nat index) by lia.
        destruct (snd (scan _ _)); do 2 f_equal; lia.
    + exists []. simpl. do 2 f_equal. lia.
Qed.

(** [findWordBoundaries] returns for the two directions the plugin uses. *)
Lemma findWordBoundaries_total (text : string) (start direction : Z) :
  direction = 1%Z \/ direction = (-1)%Z ->
  exists r reads, findWordBoundaries text start direction = Some (r, reads).
Proof.
  unfold findWordBoundaries.
  destruct (Z.lt_ge_cases start 0) as [Hneg|Hpos].
  { intros _. rewrite loop_outside by lia. eauto. }
  destruct (Z.lt_ge_cases start (Z.of_nat (String.length text))) as [Hin|Hout].
  2:{ intros _. rewrite loop_outside by lia. eauto. }
  intros [-> | ->].
  - destruct (loop_forward text (S (String.length text)) 0 start) as [reads E];
      [lia|lia|]. rewrite E. eauto.
  - destruct (loop_backward text (S (String.length text)) 0 start) as [reads E];
      [lia|lia|]. rewrite E. eauto.
Qed.

(** ** Facts about [scan] and the trimming *)

Lemma scan_length (l : list ascii) :
  forall count, fst (scan count l) <= length l.
Proof.
  induction l as [|c l IH]; intros count; simpl; [lia|].
  destruct (count <? 5)%Z; [|simpl; lia].
  destruct (isEnding c); simpl; [lia|].
  specialize (IH (if Js.isSpace c then (count + 1)%Z else count)). lia.
Qed.

Lemma scan_halt (l : list ascii) :
  forall count,
    snd (scan count l) = true ->
    exists c, l !! fst (scan count l) = Some c /\ isEnding c = true.
Proof.
  induction l as [|c l IH]; intros count; simpl; [discriminate|].
  destruct (count <? 5)%Z; [|discriminate].
  destruct (isEnding c) eqn:E; simpl.
  - intros _. exists c. auto.
  - apply IH.
Qed.

(** A scan that takes [k] steps over [l] runs through any shorter prefix of
    [l] without stopping. *)
Lemma scan_take (l : list ascii) :
  forall count m,
    m <= fst (scan count l) -> scan count (take m l) = (m, false).
Proof.
  induction l as [|c l IH]; intros count m; simpl.
  - intros H. assert (m = 0) as -> by lia. reflexivity.
  - destruct m as [|m]; [reflexivity|]. simpl.
    destruct (count <? 5)%Z; [|simpl; lia].
    destruct (isEnding c); simpl; [lia|].
    intros H. rewrite IH by lia. reflexivity.
Qed.

Lemma dropLeading_length (l : list ascii) : length (dropLeading l) <= length l.
Proof.
  induction l as [|c l IH]; simpl; [lia|]. destruct (isTrimChar c); simpl; lia.
Qed.

Lemma dropLeading_idem (l : list ascii) : dropLeading (dropLeading l) = dropLeading l.
Proof.
  induction l as [|c l IH]; simpl; [reflexivity|].
  destruct (isTrimChar c) eqn:E; [exact IH|]. simpl. now rewrite E.
Qed.

Lemma dropLeading_app_keep (A B : list ascii) (c : ascii) :
  isTrimChar c = false -> dropLeading (A ++ c :: B) = dropLeading A ++ c :: B.
Proof.
  intros Hc. induction A as [|a A IH]; simpl.
  - now rewrite Hc.
  - destruct (isTrimChar a); auto.
Qed.

(** Removing the trailing run leaves a prefix. *)
Lemma dropTrailing_prefix (l : list ascii) :
  rev (dropLeading (rev l)) = take (length (dropLeading (rev l))) l.
Proof.
  induction l as [|c l IH] using rev_ind; [reflexivity|].
  rewrite rev_app_distr. simpl.
  destruct (isTrimChar c) eqn:E.
  - rewrite IH at 1. rewrite take_app.
    pose proof (dropLeading_length (rev l)) as Hl. rewrite length_rev in Hl.
    replace (length (dropLeading (rev l)) - length l) with 0 by lia.
    rewrite take_0, app_nil_r. reflexivity.
  - simpl. rewrite rev_involutive, length_rev.
    rewrite take_ge by (rewrite length_app; simpl; lia). reflexivity.
Qed.

Lemma trimEnds_middle (A B : list ascii) (c : ascii) :
  isTrimChar c = false ->
  trimEnds (A ++ c :: B) = dropLeading A ++ c :: rev (dropLeading (rev B)).
Proof.
  intros Hc. unfold trimEnds.
  rewrite dropLeading_app_keep by assumption.
  rewrite rev_app_distr. simpl. rewrite <- app_assoc. simpl.
  rewrite dropLeading_app_keep by assumption.
  rewrite rev_app_distr. simpl. rewrite rev_involutive, <- app_assoc. reflexivity.
Qed.

Lemma isTrimChar_not_ending (c : ascii) : isTrimChar c = false -> isEnding c = false.
Proof. unfold isTrimChar. now intros [? ?]%orb_false_elim. Qed.

Lemma isTrimChar_not_space (c : ascii) : isTrimChar c = false -> Js.isSpace c = false.
Proof. unfold isTrimChar. now intros [? ?]%orb_false_elim. Qed.

(** ** What extraction keeps, and why extracting again keeps the same *)

Lemma keptBefore_scan (before : list ascii) :
  scan 0 (rev (keptBefore before)) = (length (keptBefore before), false).
Proof.
  unfold keptBefore. set (A := rev before).
  destruct (scan 0 A) as [k e] eqn:Hs. simpl.
  assert (dropLeading (rev (take (k + (if e then 1 else 0)) A))
          = dropLeading (rev (take k A))) as ->.
  { destruct e; [|now rewrite Nat.add_0_r].
    destruct (scan_halt A 0%Z) as (c' & Hc' & He'); [now rewrite Hs|].
    rewrite Hs in Hc'. simpl in Hc'.
    replace (k + 1) with (S k) by lia.
    rewrite (take_S_r _ _ _ Hc'), rev_app_distr. simpl.
    unfold isTrimChar. now rewrite He'. }
  rewrite dropTrailing_prefix, take_take.
  pose proof (dropLeading_length (rev (take k A))) as Hl.
  rewrite length_rev, length_take in Hl.
  rewrite scan_take.
  - f_equal. lia.
  - rewrite Hs. simpl. lia.
Qed.

Lemma keptBefore_idem (before : list ascii) :
  keptBefore (keptBefore before) = keptBefore before.
Proof.
  unfold keptBefore at 1. rewrite keptBefore_scan. simpl.
  rewrite Nat.add_0_r, take_ge by (now rewrite length_rev).
  rewrite rev_involutive. unfold keptBefore. apply dropLeading_idem.
Qed.

Lemma keptAfter_prefix (c : ascii) (after : list ascii) (j : nat) :
  isTrimChar c = false ->
  let R := keptAfter c after j in
  R = take (length R) after
  /\ length R <= length after
  /\ (j <= length after -> S (length R) <= j + fst (scan 0 (drop j (c :: after)))).
Proof.
  intros Hc. unfold keptAfter.
  set (e := if (j <=? length after)%nat then _ else _).
  rewrite dropTrailing_prefix, take_take.
  pose proof (dropLeading_length (rev (take (e - 1) after))) as Hl.
  rewrite length_rev, length_take in Hl.
  rewrite length_take.
  set (m := length (dropLeading (rev (take (e - 1) after)))) in *.
  split; [f_equal; lia|]. split; [lia|].
  intros Hj. subst e. destruct (Nat.leb_spec j (length after)); [|lia].
  destruct j as [|j]; [|lia].
  rewrite drop_0 in *. simpl in *.
  rewrite (isTrimChar_not_ending c Hc) in *. simpl in *. lia.
Qed.

Lemma keptAfter_scan (c : ascii) (after : list ascii) (j : nat) :
  isTrimChar c = false ->
  j <= length (keptAfter c after j) ->
  fst (scan 0 (drop j (c :: keptAfter c after j)))
  = S (length (keptAfter c after j)) - j.
Proof.
  intros Hc Hj.
  destruct (keptAfter_prefix c after j Hc) as (HR & Hlen & Hk).
  set (R := keptAfter c after j) in *.
  assert (c :: R = take (S (length R)) (c :: after)) as -> by (simpl; now f_equal).
  replace (S (length R)) with (j + (S (length R) - j)) at 1 by lia.
  rewrite <- take_drop_commute, scan_take; [reflexivity|lia].
Qed.

Lemma keptAfter_idem (c : ascii) (after : list ascii) (j : nat) :
  isTrimChar c = false ->
  keptAfter c (keptAfter c after j) j = keptAfter c after j.
Proof.
  intros Hc. unfold keptAfter at 1.
  set (R := keptAfter c after j).
  assert ((if (j <=? length R)%nat
           then j + fst (scan 0 (drop j (c :: R))) else S (length R))
          = S (length R)) as ->.
  { destruct (Nat.leb_spec j (length R)); [|reflexivity].
    unfold R. rewrite keptAfter_scan by assumption. fold R. lia. }
  replace (S (length R) - 1) with (length R) by lia.
  rewrite take_ge by lia.
  unfold R, keptAfter. rewrite rev_involutive, dropLeading_idem. reflexivity.
Qed.

Lemma clamp_of_nat (n x : nat) : Js.clamp n (Z.of_nat x) = Nat.min x n.
Proof. unfold Js.clamp. lia. Qed.

Lemma substring_between (text : string) (za zb : Z) (a b : nat) :
  Js.clamp (String.length text) za = a ->
  Js.clamp (String.length text) zb = b ->
  a <= b ->
  Js.substring text za zb
  = string_of_list_ascii (take (b - a) (drop a (list_ascii_of_string text))).
Proof.
  intros Ha Hb Hab. unfold Js.substring. rewrite Ha, Hb.
  now rewrite Nat.min_l, Nat.max_r by lia.
Qed.

Lemma text_around (before after : list ascii) (c : ascii) :
  let text := string_of_list_ascii (before ++ c :: after) in
  list_ascii_of_string text = before ++ c :: after
  /\ String.length text = length before + S (length after).
Proof.
  simpl. split.
  - apply list_ascii_of_string_of_list_ascii.
  - rewrite length_string_of_list_ascii, length_app. reflexivity.
Qed.

Lemma backward_around (before after : list ascii) (c : ascii) :
  isTrimChar c = false ->
  let text := string_of_list_ascii (before ++ c :: after) in
  let r := scan 0 (rev before) in
  let k := fst r + (if snd r then 1 else 0) in
  k <= length before
  /\ exists reads,
       findWordBoundaries text (Z.of_nat (length before)) (-1)
       = Some (Z.of_nat (length before - k), reads).
Proof.
  intros Hc text r k.
  destruct (text_around before after c) as [HL Hn]. fold text in HL, Hn.
  assert (k <= length before) as Hk.
  { subst k. pose proof (scan_length (rev before) 0%Z) as Hlen.
    rewrite length_rev in Hlen. fold r in Hlen.
    destruct (snd r) eqn:E; [|lia].
    destruct (scan_halt (rev before) 0%Z E) as (c' & Hc' & _).
    apply lookup_lt_Some in Hc'. rewrite length_rev in Hc'. fold r in Hc'. lia. }
  split; [exact Hk|].
  unfold findWordBoundaries.
  destruct (loop_backward text (S (String.length text)) 0 (Z.of_nat (length before)))
    as [reads E]; [lia|lia|].
  exists reads. rewrite E. f_equal. f_equal.
  rewrite HL.
  replace (Z.to_nat (Z.of_nat (length before) + 1)) with (length before + 1) by lia.
  rewrite take_app, take_ge by lia.
  replace (length before + 1 - length before) with 1 by lia.
  simpl take. rewrite rev_app_distr. simpl.
  rewrite (isTrimChar_not_ending c Hc), (isTrimChar_not_space c Hc). simpl. fold r.
  subst k. destruct (snd r); lia.
Qed.

Lemma forward_around (before after : list ascii) (c : ascii) (j : nat) :
  isTrimChar c = false ->
  let text := string_of_list_ascii (before ++ c :: after) in
  let e :=
    if (j <=? length after)%nat
    then j + fst (scan 0 (drop j (c :: after)))
    else S (length after) in
  1 <= e <= S (length after)
  /\ exists z reads,
       findWordBoundaries text (Z.of_nat (length before) + Z.of_nat j) 1
       = Some (z, reads)
       /\ Js.clamp (String.length text) z = length before + e.
Proof.
  intros Hc text e.
  destruct (text_around before after c) as [HL Hn]. fold text in HL, Hn.
  unfold findWordBoundaries. subst e.
  destruct (Nat.leb_spec j (length after)) as [Hj|Hj].
  - pose proof (scan_length (drop j (c :: after)) 0%Z) as Hlen.
    rewrite length_drop in Hlen. simpl length in Hlen.
    assert (1 <= j + fst (scan 0 (drop j (c :: after)))) as H1.
    { destruct j as [|j]; [|lia]. rewrite drop_0. simpl.
      rewrite (isTrimChar_not_ending c Hc). simpl. lia. }
    split; [lia|].
    destruct (loop_forward text (S (String.length text)) 0
                (Z.of_nat (length before) + Z.of_nat j)) as [reads E]; [lia|lia|].
    rewrite E. eexists _, reads. split; [reflexivity|].
    rewrite HL.
    replace (Z.to_nat (Z.of_nat (length before) + Z.of_nat j))
      with (length before + j) by lia.
    rewrite drop_app, drop_ge by lia.
    replace (length before + j - length before) with j by lia. simpl app.
    unfold Js.clamp. lia.
  - split; [lia|].
    rewrite loop_outside by lia. simpl.
    eexists _, []. split; [reflexivity|]. unfold Js.clamp. lia.
Qed.

(** Extraction on a line [before ++ c :: after], for a span that starts on
    [c] and is [j] code units long: the sentence and the column where it
    starts. *)
Lemma sentence_around (before after : list ascii) (c : ascii) (j : nat) :
  isTrimChar c = false ->
  let text := string_of_list_ascii (before ++ c :: after) in
  let f := Z.of_nat (length before) in
  sentenceOfLine text f (f + Z.of_nat j)
  = Some (string_of_list_ascii (keptBefore before ++ c :: keptAfter c after j))
  /\ sentenceStart text f (f + Z.of_nat j)
     = Some (f - Z.of_nat (length (keptBefore before)))%Z.
Proof.
  intros Hc text f.
  destruct (text_around before after c) as [HL Hn]. fold text in HL, Hn.
  destruct (backward_around before after c Hc) as (Hk & reads1 & E1).
  destruct (forward_around before after c j Hc) as (He & z & reads2 & E2 & Hz).
  fold text in E1, E2, Hz. fold f in E1, E2.
  set (k := fst (scan 0 (rev before)) + (if snd (scan 0 (rev before)) then 1 else 0)) in *.
  set (e := if (j <=? length after)%nat then _ else _) in *.
  assert (Js.substring text (Z.of_nat (length before - k)) z
          = string_of_list_ascii
              (rev (take k (rev before)) ++ c :: take (e - 1) after)) as Hsub.
  { rewrite (substring_between text _ _ (length before - k) (length before + e));
      [|rewrite clamp_of_nat; lia|exact Hz|lia].
    f_equal. rewrite HL, drop_app.
    replace (length before - k - length before) with 0 by lia. rewrite drop_0.
    rewrite take_app, length_drop.
    rewrite take_ge by (rewrite length_drop; lia).
    replace (length before + e - (length before - k) - (length before - (length before - k)))
      with (S (e - 1)) by lia.
    simpl. f_equal.
    rewrite firstn_rev, rev_involutive. reflexivity. }
  pose proof (dropLeading_length (rev (take k (rev before)))) as Hdl.
  rewrite length_rev, length_take, length_rev in Hdl.
  split.
  - unfold sentenceOfLine, sentenceOfLine_traced. rewrite E1, E2. simpl.
    rewrite Hsub. unfold replace_trim.
    rewrite list_ascii_of_string_of_list_ascii, trimEnds_middle by assumption.
    reflexivity.
  - unfold sentenceStart. rewrite E1, E2, Hsub.
    rewrite list_ascii_of_string_of_list_ascii, dropLeading_app_keep by assumption.
    rewrite clamp_of_nat, Hz, !length_app, length_rev, length_take, length_rev.
    unfold keptBefore. fold k. f_equal. lia.
Qed.

Lemma index_Some_unit (text : string) (i : Z) (c : ascii) :
  Js.index text i = Some (String c EmptyString) ->
  (0 <= i)%Z /\ list_ascii_of_string text !! Z.to_nat i = Some c.
Proof.
  unfold Js.index. destruct (Z.ltb_spec i 0); [discriminate|].
  rewrite get_list_ascii.
  destruct (list_ascii_of_string text !! Z.to_nat i); [|discriminate].
  intros [= ->]. split; [lia|reflexivity].
Qed.

(** ** Sentence extraction: the claims *)

(** C6. For the line "The quick brown fox jumps. Over the lazy dog." and the
    word span of "jumps" (columns 20 to 25), whatever else the editor holds
    and whichever line of the document it is: the forward scan reads the
    period at column 25 and halts there, the backward scan runs to the start
    of the line, and the extracted sentence is exactly
    "The quick brown fox jumps". *)
Theorem sentence_of_jumps_example :
  forall (sel : string) (cur cfrom cto : EditorPosition)
         (wordAt_ : EditorPosition -> option (EditorPosition * EditorPosition))
         (getRange_ : EditorPosition -> EditorPosition -> string) (lineNo : Z),
    let text := "The quick brown fox jumps. Over the lazy dog." in
    let editor :=
      {| getSelection := sel; getCursor := cur; getCursor_from := cfrom;
         getCursor_to := cto; wordAt := wordAt_; getLine := fun _ => text;
         getRange := getRange_ |} in
    Js.substring text 20 25 = "jumps"
    /\ Js.index text 25 = Some "."
    /\ findWordBoundaries text 25 1 = Some (25%Z, [25%Z])
    /\ fst <$> findWordBoundaries text 20 (-1) = Some 0%Z
    /\ Js.substring text 0 25 = "The quick brown fox jumps"
    /\ getSentenceUnderCursor editor {| line := lineNo; ch := 20 |}
         {| line := lineNo; ch := 25 |}
       = Some "The quick brown fox jumps".
Proof.
  intros. repeat split; vm_compute; reflexivity.
Qed.

(** C7. For every line and every pair of columns, sentence extraction
    returns, and every index at which its two boundary scans read the line
    satisfies 0 <= index < line.length. *)
Theorem boundary_scan_reads_in_bounds (text : string) (from_ch to_ch : Z) :
  exists sentence reads,
    sentenceOfLine_traced text from_ch to_ch = Some (sentence, reads)
    /\ Forall (fun i => (0 <= i < Z.of_nat (String.length text))%Z) reads.
Proof.
  unfold sentenceOfLine_traced.
  destruct (findWordBoundaries_total text from_ch (-1)) as (start & reads1 & E1);
    [now right|].
  destruct (findWordBoundaries_total text to_ch 1) as (end_ & reads2 & E2);
    [now left|].
  rewrite E1, E2. eexists _, _. split; [reflexivity|].
  apply Forall_app. split; eapply loop_reads_in_range; eassumption.
Qed.

(** A span that lies wholly inside a run that the trimming removes has no
    position in the sentence.  In the line "Yes. No" the selection "."
    (columns 3 to 4) yields the sentence "No", which starts at column 5;
    carried over, the span would stand at columns -2 to -1, and extraction on
    "No" from there yields the empty string. *)
Lemma span_inside_trimmed_run_has_no_position :
  Js.substring "Yes. No" 3 4 = "."
  /\ sentenceOfLine "Yes. No" 3 4 = Some "No"
  /\ sentenceStart "Yes. No" 3 4 = Some 5%Z
  /\ sentenceOfLine "No" (3 - 5) (4 - 5) = Some ""
  /\ sentenceOfLine "No" (3 - 5) (4 - 5) <> Some "No".
Proof.
  repeat split; try (vm_compute; reflexivity). vm_compute. discriminate.
Qed.

(** ** The result cache: the claims *)

Lemma get_set_same (c : SimpleWordCache.t) (word results : list string) :
  SimpleWordCache.get (SimpleWordCache.set c word results) word = results.
Proof.
  unfold SimpleWordCache.get, SimpleWordCache.set. simpl.
  now rewrite lookup_insert_eq.
Qed.

(** C5, as the claim states it, fails: the entry stored for "Happy" is not
    under the lowercase key "happy", and [get] for "happy" finds nothing. *)
Lemma cache_key_is_not_lowercased :
  Js.toLowerCase "Happy" = "happy"
  /\ SimpleWordCache.map (SimpleWordCache.set SimpleWordCache.new ["Happy"] ["glad"])
       !! Some (Js.toLowerCase "Happy") = None
  /\ SimpleWordCache.get (SimpleWordCache.set SimpleWordCache.new ["Happy"] ["glad"])
       [Js.toLowerCase "Happy"] = [].
Proof.
  split; [reflexivity|].
  assert (SimpleWordCache.map
            (SimpleWordCache.set SimpleWordCache.new ["Happy"] ["glad"])
            !! Some (Js.toLowerCase "Happy") = None) as H.
  { simpl. rewrite lookup_insert_ne by discriminate. apply lookup_empty. }
  split; [exact H|]. unfold SimpleWordCache.get.
  change (head [Js.toLowerCase "Happy"]) with (Some (Js.toLowerCase "Happy")).
  now rewrite H.
Qed.

(** C5, amended. For every cache, key list and result list: [set] files the
    list under the first element of the key list exactly as it is given (no
    lowercasing; [undefined] for an empty key list), and a following [get]
    returns the stored list, elements and order unchanged, for every key
    list with the same first element, and what the cache held before for
    every other. *)
Theorem cache_set_then_get_exact_key
    (c : SimpleWordCache.t) (word word' results : list string) :
  SimpleWordCache.map (SimpleWordCache.set c word results) !! head word = Some results
  /\ SimpleWordCache.get (SimpleWordCache.set c word results) word = results
  /\ SimpleWordCache.get (SimpleWordCache.set c word results) word'
     = if decide (head word = head word') then results else SimpleWordCache.get c word'.
Proof.
  unfold SimpleWordCache.get, SimpleWordCache.set. simpl.
  rewrite lookup_insert_eq. repeat split.
  rewrite lookup_insert. destruct (decide (head word = head word')); reflexivity.
Qed.

(** ** Cache-or-fetch *)



Section PluginFacts.

Context {World : Type} (api : DatamuseApi World).


Lemma process_unfold (cat : Category) (w : string) (st : State World) :
  process api cat w st
  = match wordy_prop (heap st) (caches st) (category_key cat) with
    | Some cache =>
        getCacheOrFetch cache w
          (fun word =>
             call_api (category_call cat word)
               (match cat with
                | Syn => wordsSimilarTo api word
                | Ant => wordsOppositeTo api word true
                | Rhy => wordsThatRhymeWith api word
                end)) st
    | None => (None, st)
    end.
Proof.
  destruct cat; simpl;
    unfold processSynonyms, processAntonyms, processRhymes, bind, this_caches;
    simpl; destruct (wordy_prop (heap st) (caches st) _); reflexivity.
Qed.

(** A non-empty cached list is returned as it is, and nothing changes. *)
Lemma process_hit (cat : Category) (w : string) (st : State World)
    (cache : loc) (r : list string) :
  wordy_prop (heap st) (caches st) (category_key cat) = Some cache ->
  cache_get (heap st) cache [w] = Some r ->
  r <> [] ->
  process api cat w st = (Some r, st).
Proof.
  intros Hp Hg Hr. rewrite process_unfold, Hp.
  unfold getCacheOrFetch, bind, m_cache_get, ret. rewrite Hg.
  destruct r; [congruence|reflexivity].
Qed.


End PluginFacts.

(** ** The shared [EMPTY_CACHE] object and the "Clear cache" button *)

Lemma module_heap_syn :
  wordy_prop module_heap EMPTY_CACHE "syn" = Some 1%positive.
Proof. vm_compute. reflexivity. Qed.

Lemma module_heap_fresh_cache (word : list string) :
  cache_get module_heap 1%positive word = Some [].
Proof. reflexivity. Qed.

(** The first synonym lookup of a fresh plugin: the client is asked, and the
    answer is written into the cache instance that [EMPTY_CACHE.syn] refers
    to. *)
Lemma processSynonyms_fresh {World : Type} (api : DatamuseApi World)
    (word : string) (w0 : World) :
  processSynonyms api word (new_plugin w0)
  = match wordsSimilarTo api word w0 with
    | (Some results, w') =>
        (Some results,
         {| heap := <[1%positive :=
                       ObjSimpleWordCache
                         (SimpleWordCache.set SimpleWordCache.new [word] results)]>
                    module_heap;
            caches := EMPTY_CACHE; settings := DEFAULT_SETTINGS; world := w';
            calls := [WordsSimilarTo word]; ui := [] |})
    | (None, w') =>
        (None,
         {| heap := module_heap; caches := EMPTY_CACHE;
            settings := DEFAULT_SETTINGS; world := w';
            calls := [WordsSimilarTo word]; ui := [] |})
    end.
Proof.
  unfold processSynonyms, bind, this_caches, getCacheOrFetch, bind, m_cache_get,
    m_cache_set, call_api, ret.
  unfold new_plugin at 1 2 3. cbn [heap caches].
  rewrite module_heap_syn, module_heap_fresh_cache.
  cbn [length Nat.ltb Nat.leb].
  unfold new_plugin. cbn [heap caches world calls settings ui app].
  destruct (wordsSimilarTo api word w0) as [[results|] w']; [|reflexivity].
  cbn [heap]. unfold cache_set.
  replace (module_heap !! 1%positive)
    with (Some (ObjSimpleWordCache SimpleWordCache.new)) by reflexivity.
  reflexivity.
Qed.

(** As long as the field [caches] holds [EMPTY_CACHE] (and nothing ever
    assigns anything else to it), the button changes neither the field nor
    any cache instance. *)
Lemma clearCache_changes_no_cache {World : Type} (st : State World) :
  caches st = EMPTY_CACHE ->
  heap (snd (clearCache st)) = heap st
  /\ caches (snd (clearCache st)) = caches st
  /\ ui (snd (clearCache st)) = ui st ++ [Notice "Cache cleared."].
Proof. intros H. unfold clearCache, emit. simpl. auto. Qed.

Lemma process_keeps_caches_field {World : Type} (api : DatamuseApi World)
    (cat : Category) (w : string) (st : State World) :
  caches (snd (process api cat w st)) = caches st.
Proof.
  rewrite process_unfold.
  destruct (wordy_prop (heap st) (caches st) (category_key cat)) as [cache|];
    [|reflexivity].
  unfold getCacheOrFetch, bind, m_cache_get, m_cache_set, call_api, ret.
  destruct (cache_get (heap st) cache [w]) as [cached|]; [|reflexivity].
  destruct (0 <? length cached)%nat; [reflexivity|].
  destruct (match cat with
            | Syn => wordsSimilarTo api w
            | Ant => wordsOppositeTo api w true
            | Rhy => wordsThatRhymeWith api w
            end (world st)) as [[results|] w']; [|reflexivity].
  cbn [heap]. destruct (cache_set (heap st) cache [w] results); reflexivity.
Qed.

(** C1 (the code departs from the claim). A fresh plugin looks up the
    synonyms of a word and the client answers with a non-empty list; the
    user then presses "Clear cache".  The notice "Cache cleared." is shown,
    but [caches] still refers to the same object, whose [syn] cache still
    returns the list for the word. *)
Theorem clear_cache_keeps_cached_word :
  forall (World : Type)
         (opp : string -> bool -> World -> option (list string) * World)
         (rhy : string -> World -> option (list string) * World)
         (allit : option string -> option string -> World
                  -> option (list string) * World)
         (w0 : World) (w first : string) (rest : list string),
    let api := {| wordsSimilarTo := fun _ w => (Some (first :: rest), w);
                  wordsOppositeTo := opp; wordsThatRhymeWith := rhy;
                  alliterativeSynonyms := allit |} in
    let st1 := snd (processSynonyms api w (new_plugin w0)) in
    let st2 := snd (clearCache st1) in
    ui st2 = [Notice "Cache cleared."]
    /\ caches st2 = caches st1
    /\ wordy_prop (heap st2) (caches st2) "syn" = Some 1%positive
    /\ cache_get (heap st2) 1%positive [w] = Some (first :: rest)
    /\ cache_get (heap st2) 1%positive [w] <> Some [].
Proof.
  intros. subst st2 st1. rewrite processSynonyms_fresh. subst api.
  cbn [wordsSimilarTo snd]. unfold clearCache, emit.
  cbn [snd heap caches calls ui app].
  assert (cache_get
            (<[1%positive :=
                 ObjSimpleWordCache
                   (SimpleWordCache.set SimpleWordCache.new [w] (first :: rest))]>
               module_heap) 1%positive [w] = Some (first :: rest)) as Hg.
  { unfold cache_get. rewrite lookup_insert_eq. f_equal. apply get_set_same. }
  split; [reflexivity|]. split; [reflexivity|]. split; [|split].
  - unfold wordy_prop. rewrite lookup_insert_ne by discriminate.
    apply module_heap_syn.
  - exact Hg.
  - rewrite Hg. discriminate.
Qed.

(** ** No target word *)

(** C3 (the code departs from the claim). With an empty selection and no
    word under the cursor, [getRootSelection] returns the empty word with the
    zero-length span at line 0, column 0 and the empty sentence, as claimed.
    But the command flow and the menu flow of a fresh plugin then hand the
    empty word to the processing function, which asks the lexical client for
    the words similar to the empty string. *)
Theorem no_target_word_is_still_looked_up :
  forall (World : Type) (api : DatamuseApi World) (w0 : World)
         (cur cfrom cto : EditorPosition) (getLine_ : Z -> string)
         (getRange_ : EditorPosition -> EditorPosition -> string)
         (menu : list MenuEntry),
    let editor :=
      {| getSelection := ""; getCursor := cur; getCursor_from := cfrom;
         getCursor_to := cto; wordAt := fun _ => None; getLine := getLine_;
         getRange := getRange_ |} in
    getRootSelection editor
    = Some {| word := ""; from := {| line := 0; ch := 0 |};
              to := {| line := 0; ch := 0 |}; sentence := "" |}
    /\ calls (snd (createCommandModal editor (processSynonyms api) (new_plugin w0)))
       = [WordsSimilarTo ""]
    /\ calls (snd (createWordMenu menu editor (fun w _ => processSynonyms api w)
                     (new_plugin w0)))
       = [WordsSimilarTo ""].
Proof.
  intros. split; [reflexivity|].
  unfold createCommandModal, createWordMenu, bind, lift_option, ret.
  change (getRootSelection editor)
    with (Some {| word := ""; from := {| line := 0; ch := 0 |};
                  to := {| line := 0; ch := 0 |}; sentence := "" |}).
  cbn [word]. rewrite processSynonyms_fresh.
  destruct (wordsSimilarTo api "" w0) as [[results|] w']; split; try reflexivity.
  destruct (length results =? 0)%nat; reflexivity.
Qed.

(** ** The alliterative-synonym command *)

(** C4 (the code departs from the claim). The selection "big brave" splits
    into "big" and "brave" and the client is asked for both, as claimed.  The
    selection "brave" splits into the single piece "brave": [rootWord] is
    [undefined], not the empty string, the test [rootWord != ""] succeeds,
    and the client is asked with [undefined] as root word; the notice
    "Select a word first" is not what the command shows. *)
Theorem alliterative_command_without_space_fetches :
  forall (World : Type) (api : DatamuseApi World) (st : State World)
         (cur cfrom cto : EditorPosition)
         (wordAt_ : EditorPosition -> option (EditorPosition * EditorPosition))
         (getLine_ : Z -> string)
         (getRange_ : EditorPosition -> EditorPosition -> string),
    let editor sel :=
      {| getSelection := sel; getCursor := cur; getCursor_from := cfrom;
         getCursor_to := cto; wordAt := wordAt_; getLine := getLine_;
         getRange := getRange_ |} in
    Js.split_space "big brave" = ["big"; "brave"]
    /\ calls (snd (alliterativeSynonymsCommand api (editor "big brave") st))
       = calls st ++ [AlliterativeSynonyms (Some "big") (Some "brave")]
    /\ Js.split_space "brave" = ["brave"]
    /\ calls (snd (alliterativeSynonymsCommand api (editor "brave") st))
       = calls st ++ [AlliterativeSynonyms (Some "brave") None]
    /\ ui (snd (alliterativeSynonymsCommand api (editor "brave") st))
       <> ui st ++ [Notice "Oops — Select a word first."].
Proof.
  intros. split; [reflexivity|]. split.
  { unfold alliterativeSynonymsCommand, bind, call_api, emit.
    change (Js.split_space (getSelection (editor "big brave")))
      with ["big"; "brave"].
    cbn [lookup list_lookup loose_neq_empty String.eqb Ascii.eqb negb].
    simpl.
    destruct (alliterativeSynonyms api (Some "big") (Some "brave") (world st))
      as [[results|] w']; [|reflexivity].
    destruct (length results =? 0)%nat; reflexivity. }
  split; [reflexivity|].
  unfold alliterativeSynonymsCommand, bind, call_api, emit.
  change (Js.split_space (getSelection (editor "brave"))) with ["brave"].
  simpl.
  destruct (alliterativeSynonyms api (Some "brave") None (world st))
    as [[results|] w'].
  - destruct (length results =? 0)%nat; (split; [reflexivity|]); simpl;
      intros H; apply app_inj_tail in H as [_ H]; discriminate.
  - split; [reflexivity|]. simpl. intros H.
    apply (f_equal length) in H. rewrite length_app in H. simpl in H. lia.
Qed.

(** ** The rendered menu *)

Lemma foldl_addItem (g : string -> MenuEntry) (words : list string) :
  forall menu,
    foldl (fun menu word => menu ++ [g word]) menu words = menu ++ map g words.
Proof.
  induction words as [|w words IH]; intros menu; simpl.
  - now rewrite app_nil_r.
  - now rewrite IH, <- app_assoc.
Qed.

Lemma createMenuForWords_entries {World : Type} (st : State World)
    (menu : list MenuEntry) (words : list string) (from to : EditorPosition) :
  createMenuForWords st menu words from to
  = menu
    ++ (if (length words =? 0)%nat then [MenuItem "No results found." None] else [])
    ++ map (fun w => MenuItem w (Some (ReplaceRange w from to)))
         (Js.slice0 words (editorMenuMaxResults (settings st)))
    ++ (if (editorMenuMaxResults (settings st) <? Z.of_nat (length words))%Z
        then [Separator;
              MenuItem
                ("More... ("
                 ++ Js.numToString
                      (Z.of_nat (length words) - editorMenuMaxResults (settings st))
                 ++ ")")
                (Some (OpenModal words (ReplaceRangeAt from to)))]
        else []).
Proof.
  unfold createMenuForWords. rewrite foldl_addItem.
  destruct (length words =? 0)%nat,
    (editorMenuMaxResults (settings st) <? Z.of_nat (length words))%Z;
    rewrite <- ?app_assoc, ?app_nil_r; reflexivity.
Qed.

(** C9. With [editorMenuMaxResults = 15] and a list of 20 results, the menu
    receives exactly the first 15 results in order, each as an entry that
    replaces the captured range with that result, then a separator and one
    entry titled "More... (5)" that opens the searchable picker over all 20
    results.  And for every setting and result list: either the number of
    results exceeds the maximum, or the menu receives the "No results
    found." item if the list is empty, one entry per result, and no overflow
    entry. *)
Theorem menu_shows_max_results_then_more {World : Type}
    (st st' : State World) (menu : list MenuEntry) (words words' : list string)
    (from to : EditorPosition) :
  editorMenuMaxResults (settings st) = 15%Z ->
  length words = 20 ->
  createMenuForWords st menu words from to
  = menu
    ++ map (fun w => MenuItem w (Some (ReplaceRange w from to))) (take 15 words)
    ++ [Separator;
        MenuItem "More... (5)" (Some (OpenModal words (ReplaceRangeAt from to)))]
  /\ ((editorMenuMaxResults (settings st') < Z.of_nat (length words'))%Z
      \/ createMenuForWords st' menu words' from to
         = menu
           ++ (if (length words' =? 0)%nat
               then [MenuItem "No results found." None] else [])
           ++ map (fun w => MenuItem w (Some (ReplaceRange w from to))) words').
Proof.
  intros Hmax Hlen. split.
  - rewrite createMenuForWords_entries, Hmax, Hlen. reflexivity.
  - destruct (Z.ltb_spec (editorMenuMaxResults (settings st'))
                (Z.of_nat (length words'))) as [Hlt|Hge]; [now left|right].
    rewrite createMenuForWords_entries.
    destruct (Z.ltb_spec (editorMenuMaxResults (settings st'))
                (Z.of_nat (length words'))); [lia|].
    unfold Js.slice0.
    destruct (Z.ltb_spec (editorMenuMaxResults (settings st')) 0); [lia|].
    rewrite take_ge by lia. now rewrite app_nil_r.
Qed.

Lemma menu_shows_max_results_then_more_witness :
  let p := {| line := 0; ch := 0 |} in
  let words := replicate 20 "word" in
  createMenuForWords (new_plugin tt) [] words p p
  = []
    ++ map (fun w => MenuItem w (Some (ReplaceRange w p p))) (take 15 words)
    ++ [Separator; MenuItem "More... (5)" (Some (OpenModal words (ReplaceRangeAt p p)))]
  /\ ((editorMenuMaxResults (settings (new_plugin tt)) < Z.of_nat (length ["a"; "b"]))%Z
      \/ createMenuForWords (new_plugin tt) [] ["a"; "b"] p p
         = []
           ++ (if (length ["a"; "b"] =? 0)%nat
               then [MenuItem "No results found." None] else [])
           ++ map (fun w => MenuItem w (Some (ReplaceRange w p p))) ["a"; "b"]).
Proof.
  apply (menu_shows_max_results_then_more (new_plugin tt) (new_plugin tt) []
           (replicate 20 "word") ["a"; "b"]); reflexivity.
Defined.

(** C10, as the claim states it, fails: with [editorMenuMaxResults = -1]
    (the settings field takes what [parseInt] returns) an empty result list
    puts three entries into the menu, the last of them a "More... (1)" item
    with a click action. *)
Lemma empty_results_menu_with_negative_max :
  createMenuForWords
    {| heap := module_heap; caches := EMPTY_CACHE;
       settings :=
         {| toggleEditorMenu := true; toggleSynonymEditorMenu := true;
            toggleAntonymEditorMenu := true; toggleRhymeEditorMenu := true;
            toggleSuggestionsEditorMenu := true; editorMenuMaxResults := -1;
            suggestionsMaxResults := 10 |};
       world := tt; calls := []; ui := [] |}
    [] [] {| line := 0; ch := 0 |} {| line := 0; ch := 0 |}
  = [MenuItem "No results found." None; Separator;
     MenuItem "More... (1)"
       (Some (OpenModal []
                (ReplaceRangeAt {| line := 0; ch := 0 |} {| line := 0; ch := 0 |})))]
  /\ createMenuForWords
       {| heap := module_heap; caches := EMPTY_CACHE;
          settings :=
            {| toggleEditorMenu := true; toggleSynonymEditorMenu := true;
               toggleAntonymEditorMenu := true; toggleRhymeEditorMenu := true;
               toggleSuggestionsEditorMenu := true; editorMenuMaxResults := -1;
               suggestionsMaxResults := 10 |};
          world := tt; calls := []; ui := [] |}
       [] [] {| line := 0; ch := 0 |} {| line := 0; ch := 0 |}
     <> [MenuItem "No results found." None].
Proof.
  split; [reflexivity|]. vm_compute. discriminate.
Qed.

(** C10, amended. When [editorMenuMaxResults] is not negative and the result
    list is empty, the menu-driven flow adds exactly one entry: the item
    titled "No results found.", with no click action; so nothing in what it
    adds can replace a range of the document. *)
Theorem empty_results_menu_is_one_plain_item {World : Type}
    (st : State World) (menu : list MenuEntry) (from to : EditorPosition) :
  (0 <= editorMenuMaxResults (settings st))%Z ->
  createMenuForWords st menu [] from to
  = menu ++ [MenuItem "No results found." None].
Proof.
  intros Hmax. rewrite createMenuForWords_entries. simpl length.
  destruct (Z.ltb_spec (editorMenuMaxResults (settings st)) (Z.of_nat 0)); [lia|].
  unfold Js.slice0.
  destruct (editorMenuMaxResults (settings st) <? 0)%Z; rewrite take_nil;
    reflexivity.
Qed.

Lemma empty_results_menu_is_one_plain_item_witness :
  createMenuForWords (new_plugin tt) [] []
    {| line := 0; ch := 0 |} {| line := 0; ch := 0 |}
  = [] ++ [MenuItem "No results found." None].
Proof.
  apply (empty_results_menu_is_one_plain_item (new_plugin tt) []
           {| line := 0; ch := 0 |} {| line := 0; ch := 0 |}).
  simpl. lia.
Defined.


(** * Further properties of the code *)

(** ** Sentence extraction *)

Lemma sentenceOfLine_returns (text : string) (from_ch to_ch : Z) :
  exists start end_,
    sentenceOfLine text from_ch to_ch
    = Some (replace_trim (Js.substring text start end_)).
Proof.
  unfold sentenceOfLine, sentenceOfLine_traced.
  destruct (findWordBoundaries_total text from_ch (-1)) as (start & reads1 & E1);
    [now right|].
  destruct (findWordBoundaries_total text to_ch 1) as (end_ & reads2 & E2);
    [now left|].
  rewrite E1, E2. exists start, end_. reflexivity.
Qed.

Lemma dropLeading_drop (l : list ascii) :
  dropLeading l = drop (length l - length (dropLeading l)) l.
Proof.
  induction l as [|c l IH]; [reflexivity|]. simpl dropLeading.
  destruct (isTrimChar c).
  - pose proof (dropLeading_length l). rewrite IH at 1.
    replace (length (c :: l) - length (dropLeading l))
      with (S (length l - length (dropLeading l))) by (simpl; lia).
    reflexivity.
  - now rewrite Nat.sub_diag.
Qed.

(** The trimming keeps a contiguous piece. *)
Lemma trimEnds_piece (l : list ascii) :
  trimEnds l
  = take (length (trimEnds l)) (drop (length l - length (dropLeading l)) l).
Proof.
  unfold trimEnds. rewrite dropTrailing_prefix at 1.
  rewrite length_rev. now rewrite <- dropLeading_drop.
Qed.

Lemma dropLeading_head (l : list ascii) :
  default true (negb ∘ isTrimChar <$> head (dropLeading l)) = true.
Proof.
  induction l as [|c l IH]; [reflexivity|]. simpl dropLeading.
  destruct (isTrimChar c) eqn:E; [exact IH|]. simpl. now rewrite E.
Qed.

Lemma dropLeading_fixed (l : list ascii) :
  default true (negb ∘ isTrimChar <$> head l) = true -> dropLeading l = l.
Proof.
  destruct l as [|c l]; [reflexivity|]. simpl.
  destruct (isTrimChar c); [discriminate|reflexivity].
Qed.

Lemma head_take_nonempty (l : list ascii) (n : nat) :
  take n l <> [] -> head (take n l) = head l.
Proof. destruct l, n; simpl; congruence. Qed.

Lemma trimEnds_head (l : list ascii) :
  default true (negb ∘ isTrimChar <$> head (trimEnds l)) = true.
Proof.
  unfold trimEnds. rewrite dropTrailing_prefix.
  destruct (take (length (dropLeading (rev (dropLeading l)))) (dropLeading l))
    as [|c k] eqn:E; [reflexivity|].
  rewrite <- E, head_take_nonempty by (rewrite E; discriminate).
  apply dropLeading_head.
Qed.

Lemma trimEnds_last (l : list ascii) :
  default true (negb ∘ isTrimChar <$> last (trimEnds l)) = true.
Proof.
  unfold trimEnds.
  pose proof (dropLeading_head (rev (dropLeading l))) as H.
  destruct (dropLeading (rev (dropLeading l))) as [|c k]; [reflexivity|].
  simpl rev. rewrite last_snoc. exact H.
Qed.

Lemma trimEnds_fixed (l : list ascii) :
  default true (negb ∘ isTrimChar <$> head l) = true ->
  default true (negb ∘ isTrimChar <$> last l) = true ->
  trimEnds l = l.
Proof.
  intros Hh Hl. unfold trimEnds. rewrite (dropLeading_fixed l Hh).
  rewrite dropLeading_fixed, rev_involutive; [reflexivity|].
  destruct l as [|c l] using rev_ind; [reflexivity|].
  rewrite rev_app_distr. simpl. now rewrite last_snoc in Hl.
Qed.

Lemma piece_of_piece (l : list ascii) (m k n lo : nat) :
  take m (drop k (take n (drop lo l))) = take (Nat.min m (n - k)) (drop (lo + k) l).
Proof.
  rewrite <- take_take, <- drop_drop. f_equal.
  destruct (Nat.le_gt_cases k n) as [Hle|Hgt].
  - rewrite (take_drop_commute (drop lo l) (n - k) k).
    now replace (k + (n - k)) with n by lia.
  - replace (n - k) with 0 by lia. rewrite take_0.
    apply drop_ge. rewrite length_take. lia.
Qed.

(** X1. For every line and every pair of columns, the extracted sentence is
    a contiguous piece of the line: extraction never reorders, repeats or
    invents text, and the sentence is never longer than the line. *)
Theorem sentence_is_piece_of_line (text : string) (from_ch to_ch : Z) :
  exists sentence a n,
    sentenceOfLine text from_ch to_ch = Some sentence
    /\ list_ascii_of_string sentence = take n (drop a (list_ascii_of_string text))
    /\ String.length sentence <= String.length text.
Proof.
  destruct (sentenceOfLine_returns text from_ch to_ch) as (start & end_ & E).
  rewrite E. unfold replace_trim, Js.substring.
  rewrite list_ascii_of_string_of_list_ascii.
  set (lo := Nat.min _ _). set (hi := Nat.max _ _).
  set (sub := take (hi - lo) (drop lo (list_ascii_of_string text))).
  assert (exists a n, trimEnds sub = take n (drop a (list_ascii_of_string text)))
    as (a & n & Hp).
  { rewrite trimEnds_piece. unfold sub. rewrite piece_of_piece. eauto. }
  eexists _, a, n. split; [reflexivity|].
  rewrite list_ascii_of_string_of_list_ascii. split; [exact Hp|].
  rewrite length_string_of_list_ascii, Hp, length_take, length_drop,
    length_list_ascii. lia.
Qed.

(** X2. For every line and every pair of columns, the extracted sentence
    neither starts nor ends with white space or a sentence ending, and
    trimming it again changes nothing. *)
Theorem sentence_has_clean_ends (text : string) (from_ch to_ch : Z) :
  exists sentence,
    sentenceOfLine text from_ch to_ch = Some sentence
    /\ default true
         (negb ∘ isTrimChar <$> head (list_ascii_of_string sentence)) = true
    /\ default true
         (negb ∘ isTrimChar <$> last (list_ascii_of_string sentence)) = true
    /\ replace_trim sentence = sentence.
Proof.
  destruct (sentenceOfLine_returns text from_ch to_ch) as (start & end_ & E).
  rewrite E. eexists. split; [reflexivity|].
  unfold replace_trim at 1 2. rewrite list_ascii_of_string_of_list_ascii.
  split; [apply trimEnds_head|]. split; [apply trimEnds_last|].
  unfold replace_trim. rewrite list_ascii_of_string_of_list_ascii.
  f_equal. apply trimEnds_fixed; [apply trimEnds_head|apply trimEnds_last].
Qed.

(** X3. When the span starts at or after the end of the line (a cursor past
    the last character, or any span of an empty line from column 0 on), both
    scans return without reading anything and the sentence is empty. *)
Theorem sentence_past_end_is_empty (text : string) (from_ch to_ch : Z) :
  (Z.of_nat (String.length text) <= from_ch)%Z ->
  (from_ch <= to_ch)%Z ->
  sentenceOfLine_traced text from_ch to_ch = Some ("", []).
Proof.
  intros Hf Ht. unfold sentenceOfLine_traced, findWordBoundaries.
  rewrite !loop_outside by lia. simpl.
  unfold Js.substring.
  replace (Js.clamp (String.length text) (from_ch + 1)) with (String.length text)
    by (unfold Js.clamp; lia).
  replace (Js.clamp (String.length text) to_ch) with (String.length text)
    by (unfold Js.clamp; lia).
  rewrite Nat.min_id, Nat.max_id, Nat.sub_diag, take_0. reflexivity.
Qed.

Lemma sentence_past_end_is_empty_witness :
  sentenceOfLine_traced "ab" 2 5 = Some ("", []).
Proof.
  apply (sentence_past_end_is_empty "ab" 2 5); simpl; lia.
Defined.

Lemma dropTrailing_keep (A B : list ascii) (d : ascii) :
  isTrimChar d = false ->
  rev (dropLeading (rev (A ++ d :: B))) = A ++ d :: rev (dropLeading (rev B)).
Proof.
  intros Hd. rewrite rev_app_distr. simpl. rewrite <- app_assoc. simpl.
  rewrite dropLeading_app_keep by assumption.
  rewrite rev_app_distr. simpl. rewrite rev_involutive, <- app_assoc. reflexivity.
Qed.

(** With a span of [j >= 1] code units whose last unit [d] is kept by the
    trimming, the part kept after the first unit covers the rest of the
    span. *)
Lemma keptAfter_covers_span (c d : ascii) (after : list ascii) (j : nat) :
  isTrimChar c = false ->
  isTrimChar d = false ->
  1 <= j ->
  (c :: after) !! (j - 1) = Some d ->
  take (j - 1) (keptAfter c after j) = take (j - 1) after
  /\ j - 1 <= length (keptAfter c after j).
Proof.
  intros Hc Hd Hj Hl.
  destruct j as [|[|j]]; [lia| |].
  { simpl. split; [reflexivity|lia]. }
  simpl in Hl. rewrite ?Nat.sub_0_r in Hl.
  replace (S (S j) - 1) with (S j) by lia.
  pose proof (lookup_lt_Some _ _ _ Hl) as Hlt.
  unfold keptAfter.
  set (e := if (S (S j) <=? length after)%nat then _ else _).
  assert (S j <= e - 1) as He.
  { subst e. destruct (Nat.leb_spec (S (S j)) (length after)); lia. }
  assert (take (e - 1) after !! j = Some d) as Hl'.
  { rewrite lookup_take_lt by lia. exact Hl. }
  rewrite <- (take_drop_middle _ _ _ Hl'), take_take.
  replace (Nat.min j (e - 1)) with j by lia.
  rewrite dropTrailing_keep by assumption.
  pose proof (length_take after j) as Hlen.
  split.
  - rewrite take_app, (take_ge (take j after)) by lia.
    replace (S j - length (take j after)) with 1 by lia. simpl.
    now rewrite (take_S_r _ _ _ Hl).
  - rewrite length_app. simpl. lia.
Qed.

(** X4. For every line and every span with from < to whose first and last
    units are neither white space nor sentence endings (a word, or a
    selection that starts and ends on word characters): the extracted
    sentence contains the text of the span, at the span's columns moved by
    the column where the sentence starts. *)
Theorem sentence_contains_span (text : string) (from_ch to_ch : Z) (c d : ascii) :
  (from_ch < to_ch)%Z ->
  Js.index text from_ch = Some (String c EmptyString) ->
  isTrimChar c = false ->
  Js.index text (to_ch - 1) = Some (String d EmptyString) ->
  isTrimChar d = false ->
  exists sentence off,
    sentenceOfLine text from_ch to_ch = Some sentence
    /\ sentenceStart text from_ch to_ch = Some off
    /\ (0 <= from_ch - off)%Z
    /\ (to_ch - off <= Z.of_nat (String.length sentence))%Z
    /\ Js.substring sentence (from_ch - off) (to_ch - off)
       = Js.substring text from_ch to_ch.
Proof.
  intros Hlt Hidx Hc Hidx' Hd.
  apply index_Some_unit in Hidx as [H0 Hl].
  apply index_Some_unit in Hidx' as [_ Hl'].
  pose proof (lookup_lt_Some _ _ _ Hl) as Hlen.
  pose proof (lookup_lt_Some _ _ _ Hl') as Hlen'.
  set (before := take (Z.to_nat from_ch) (list_ascii_of_string text)).
  set (after := drop (S (Z.to_nat from_ch)) (list_ascii_of_string text)).
  set (j := Z.to_nat (to_ch - from_ch)).
  assert (list_ascii_of_string text = before ++ c :: after) as HL.
  { unfold before, after. now rewrite (take_drop_middle _ _ _ Hl). }
  assert (text = string_of_list_ascii (before ++ c :: after)) as Htext.
  { rewrite <- HL. symmetry. apply string_of_list_ascii_of_string. }
  assert (length before = Z.to_nat from_ch) as Hb.
  { unfold before. rewrite length_take. lia. }
  assert ((c :: after) !! (j - 1) = Some d) as Hd'.
  { rewrite HL in Hl'.
    replace (Z.to_nat (to_ch - 1)) with (length before + (j - 1)) in Hl' by lia.
    now rewrite lookup_app_r, Nat.add_comm, Nat.add_sub in Hl' by lia. }
  assert (j <= S (length after)) as Hja.
  { apply lookup_lt_Some in Hd'. simpl in Hd'. lia. }
  assert (from_ch = Z.of_nat (length before)) as Hf by lia.
  assert (to_ch = (Z.of_nat (length before) + Z.of_nat j)%Z) as Ht by lia.
  assert (1 <= j) as Hj by lia.
  clearbody before after j. clear Hl Hl' Hlen Hlen' Hlt H0 Hb HL.
  subst text from_ch to_ch.
  destruct (sentence_around before after c j Hc) as [Hs Ho].
  destruct (keptAfter_covers_span c d after j Hc Hd Hj Hd') as [Hcov Hlen].
  destruct (text_around before after c) as [HL Hn].
  destruct (text_around (keptBefore before) (keptAfter c after j) c) as [HL' Hn'].
  pose proof (dropLeading_length
                (rev (take (fst (scan 0 (rev before))
                            + (if snd (scan 0 (rev before)) then 1 else 0))
                        (rev before)))) as HP.
  rewrite length_rev, length_take, length_rev in HP. fold (keptBefore before) in HP.
  eexists _, _. split; [exact Hs|]. split; [exact Ho|].
  split; [lia|]. split; [rewrite Hn'; clear - Hlen Hj; lia|].
  rewrite (substring_between _ _ _ (length (keptBefore before))
             (length (keptBefore before) + j));
    [|unfold Js.clamp; rewrite Hn'; lia|unfold Js.clamp; rewrite Hn'; lia|lia].
  rewrite (substring_between _ _ _ (length before) (length before + j));
    [|unfold Js.clamp; rewrite Hn; lia|unfold Js.clamp; rewrite Hn; lia|lia].
  rewrite HL, HL'. f_equal.
  rewrite !drop_app, !Nat.sub_diag.
  rewrite (drop_ge before), (drop_ge (keptBefore before)) by lia. simpl app.
  rewrite ?drop_0.
  replace (length (keptBefore before) + j - length (keptBefore before)) with j by lia.
  replace (length before + j - length before) with j by lia.
  destruct j as [|j]; [lia|]. rewrite !firstn_cons.
  replace (S j - 1) with j in Hcov by lia. now rewrite Hcov.
Qed.

Lemma sentence_contains_span_witness :
  exists sentence off,
    sentenceOfLine "The quick brown fox jumps. Over the lazy dog." 20 25
    = Some sentence
    /\ sentenceStart "The quick brown fox jumps. Over the lazy dog." 20 25 = Some off
    /\ (0 <= 20 - off)%Z
    /\ (25 - off <= Z.of_nat (String.length sentence))%Z
    /\ Js.substring sentence (20 - off) (25 - off)
       = Js.substring "The quick brown fox jumps. Over the lazy dog." 20 25.
Proof.
  apply (sentence_contains_span
           "The quick brown fox jumps. Over the lazy dog." 20 25 "j"%char "s"%char);
    [lia | reflexivity | reflexivity | reflexivity | reflexivity].
Defined.

(** *** The window of five white-space units *)

Lemma filter_length_app (f : ascii -> bool) (A B : list ascii) :
  length (List.filter f (A ++ B))
  = length (List.filter f A) + length (List.filter f B).
Proof. now rewrite List.filter_app, length_app. Qed.

Lemma filter_length_rev (f : ascii -> bool) (l : list ascii) :
  length (List.filter f (rev l)) = length (List.filter f l).
Proof.
  induction l as [|c l IH]; [reflexivity|]. simpl rev.
  rewrite filter_length_app, IH. simpl. destruct (f c); simpl; lia.
Qed.

Lemma filter_length_take (f : ascii -> bool) (l : list ascii) (n : nat) :
  length (List.filter f (take n l)) <= length (List.filter f l).
Proof.
  rewrite <- (take_drop n l) at 2. rewrite filter_length_app. lia.
Qed.

Lemma scan_no_ending (l : list ascii) :
  forall count, length (List.filter isEnding (take (fst (scan count l)) l)) = 0.
Proof.
  induction l as [|c l IH]; intros count; simpl; [reflexivity|].
  destruct (count <? 5)%Z; [|reflexivity].
  destruct (isEnding c) eqn:E; [reflexivity|]. simpl. rewrite E. apply IH.
Qed.

(** Before its last step the scan has met fewer than five white-space
    units. *)
Lemma scan_spaces (l : list ascii) :
  forall count m,
    m < fst (scan count l) ->
    (count + Z.of_nat (count_spaces (take m l)) < 5)%Z.
Proof.
  induction l as [|c l IH]; intros count m; simpl; [lia|].
  destruct (Z.ltb_spec count 5); [|simpl; lia].
  destruct (isEnding c); simpl; [lia|].
  destruct m as [|m]; [unfold count_spaces; simpl; lia|].
  intros Hm. apply Nat.succ_lt_mono in Hm. specialize (IH _ _ Hm).
  unfold count_spaces in *. simpl. destruct (Js.isSpace c); simpl length; lia.
Qed.

(** What is left of the scanned units once the trailing run is gone holds no
    sentence ending and at most four white-space units. *)
Lemma scanned_then_trimmed (l : list ascii) :
  let X := rev (dropLeading (rev (take (fst (scan 0 l)) l))) in
  count_spaces X <= 4 /\ length (List.filter isEnding X) = 0.
Proof.
  intros X. set (k := fst (scan 0 l)) in *.
  assert (X = take (length X) l /\ length X <= k) as [HX Hlen].
  { unfold X. rewrite dropTrailing_prefix, take_take.
    pose proof (dropLeading_length (rev (take k l))) as Hl.
    rewrite length_rev, length_take in Hl. rewrite length_take.
    split; [f_equal; lia|lia]. }
  split.
  - pose proof (dropLeading_head (rev (take k l))) as Hh.
    unfold X in *. destruct (dropLeading (rev (take k l))) as [|x Y];
      [unfold count_spaces; simpl; lia|].
    simpl in Hh. apply negb_true_iff, isTrimChar_not_space in Hh.
    simpl rev in *. rewrite length_app in HX, Hlen. simpl in HX, Hlen.
    assert (rev Y = take (length (rev Y)) l) as HY.
    { apply (f_equal (take (length (rev Y)))) in HX.
      rewrite take_app, take_ge, Nat.sub_diag, take_0, app_nil_r in HX by lia.
      rewrite HX at 1. rewrite take_take. f_equal. lia. }
    unfold count_spaces. rewrite filter_length_app. simpl. rewrite Hh. simpl.
    pose proof (scan_spaces l 0 (length (rev Y))) as Hs.
    fold k in Hs. unfold count_spaces in Hs. rewrite <- HY in Hs. lia.
  - assert (X = take (length X) (take k l)) as HX'.
    { rewrite take_take. replace (Nat.min (length X) k) with (length X) by lia.
      exact HX. }
    pose proof (filter_length_take isEnding (take k l) (length X)) as Hf.
    rewrite <- HX' in Hf. unfold k in Hf. rewrite scan_no_ending in Hf. lia.
Qed.

Lemma keptBefore_alt (before : list ascii) :
  keptBefore before
  = dropLeading (rev (take (fst (scan 0 (rev before))) (rev before))).
Proof.
  unfold keptBefore. set (A := rev before).
  destruct (scan 0 A) as [k e] eqn:Hs. simpl.
  destruct e; [|now rewrite Nat.add_0_r].
  destruct (scan_halt A 0%Z) as (c' & Hc' & He'); [now rewrite Hs|].
  rewrite Hs in Hc'. simpl in Hc'.
  replace (k + 1) with (S k) by lia.
  rewrite (take_S_r _ _ _ Hc'), rev_app_distr. simpl.
  unfold isTrimChar. now rewrite He'.
Qed.

Lemma dropTrailing_app_drop (A B : list ascii) :
  drop (length A) (rev (dropLeading (rev (A ++ B)))) = rev (dropLeading (rev B)).
Proof.
  induction B as [|x B IH] using rev_ind.
  - rewrite app_nil_r. simpl. apply drop_ge.
    pose proof (dropLeading_length (rev A)) as H.
    rewrite length_rev in *. exact H.
  - rewrite app_assoc, !rev_app_distr. simpl.
    destruct (isTrimChar x); [now rewrite rev_app_distr in IH|].
    simpl. rewrite rev_app_distr, !rev_involutive, <- app_assoc.
    rewrite drop_app, drop_ge, Nat.sub_diag by lia. reflexivity.
Qed.

Lemma take_add_app (l : list ascii) (a b : nat) :
  a <= length l -> take (a + b) l = take a l ++ take b (drop a l).
Proof.
  intros Ha. rewrite <- (take_drop a l) at 1.
  rewrite take_app, take_take, length_take.
  replace (Nat.min (a + b) a) with a by lia.
  now replace (a + b - Nat.min a (length l)) with b by lia.
Qed.

Lemma keptAfter_tail_bounded (c : ascii) (after : list ascii) (j : nat) :
  isTrimChar c = false ->
  let T := drop j (c :: keptAfter c after j) in
  count_spaces T <= 4 /\ length (List.filter isEnding T) = 0.
Proof.
  intros Hc T. subst T.
  pose proof (isTrimChar_not_ending c Hc) as Hce.
  pose proof (isTrimChar_not_space c Hc) as Hcs.
  destruct j as [|j].
  - rewrite drop_0. unfold keptAfter. simpl Nat.leb. cbv iota.
    rewrite drop_0. simpl scan. rewrite Hce, Hcs. simpl fst.
    replace (0 + S (fst (scan 0 after)) - 1) with (fst (scan 0 after)) by lia.
    destruct (scanned_then_trimmed after) as [Hs He].
    unfold count_spaces in *. simpl. rewrite Hce, Hcs. auto.
  - change (drop (S j) (c :: keptAfter c after (S j)))
      with (drop j (keptAfter c after (S j))).
    unfold keptAfter. destruct (Nat.leb_spec (S j) (length after)) as [Hj|Hj].
    + change (drop (S j) (c :: after)) with (drop j after).
      replace (S j + fst (scan 0 (drop j after)) - 1)
        with (j + fst (scan 0 (drop j after))) by lia.
      rewrite take_add_app by lia.
      pose proof (dropTrailing_app_drop (take j after)
                    (take (fst (scan 0 (drop j after))) (drop j after))) as Hd.
      rewrite length_take in Hd. replace (Nat.min j (length after)) with j in Hd by lia.
      rewrite Hd. apply scanned_then_trimmed.
    + rewrite drop_ge; [unfold count_spaces; simpl; lia|].
      pose proof (dropLeading_length (rev (take (S (length after) - 1) after))) as Hl.
      rewrite length_rev, length_take in Hl. rewrite length_rev. lia.
Qed.

(** X5. The sentence is a window of at most five words to each side.  For
    every line and every span with from <= to that starts on a unit of the
    line that is neither white space nor a sentence ending: the part of the
    sentence before the span's start, and the part from the span's end on,
    each hold no sentence ending and at most four white-space units. *)
Theorem sentence_context_is_bounded (text : string) (from_ch to_ch : Z) (c : ascii) :
  (from_ch <= to_ch)%Z ->
  Js.index text from_ch = Some (String c EmptyString) ->
  isTrimChar c = false ->
  exists sentence off,
    sentenceOfLine text from_ch to_ch = Some sentence
    /\ sentenceStart text from_ch to_ch = Some off
    /\ let units := list_ascii_of_string sentence in
       let left := take (Z.to_nat (from_ch - off)) units in
       let right := drop (Z.to_nat (to_ch - off)) units in
       count_spaces left <= 4
       /\ length (List.filter isEnding left) = 0
       /\ count_spaces right <= 4
       /\ length (List.filter isEnding right) = 0.
Proof.
  intros Hle Hidx Hc.
  apply index_Some_unit in Hidx as [H0 Hl].
  pose proof (lookup_lt_Some _ _ _ Hl) as Hlt.
  set (before := take (Z.to_nat from_ch) (list_ascii_of_string text)).
  set (after := drop (S (Z.to_nat from_ch)) (list_ascii_of_string text)).
  set (j := Z.to_nat (to_ch - from_ch)).
  assert (text = string_of_list_ascii (before ++ c :: after)) as Htext.
  { unfold before, after. rewrite (take_drop_middle _ _ _ Hl).
    symmetry. apply string_of_list_ascii_of_string. }
  assert (from_ch = Z.of_nat (length before)) as Hf.
  { unfold before. rewrite length_take. lia. }
  assert (to_ch = (Z.of_nat (length before) + Z.of_nat j)%Z) as Ht by lia.
  clearbody before after j. clear Hl Hlt Hle H0. subst text from_ch to_ch.
  destruct (sentence_around before after c j Hc) as [Hs Ho].
  eexists _, _. split; [exact Hs|]. split; [exact Ho|].
  rewrite list_ascii_of_string_of_list_ascii.
  pose proof (dropLeading_length
                (rev (take (fst (scan 0 (rev before))) (rev before)))) as HP.
  rewrite length_rev, length_take, length_rev, <- keptBefore_alt in HP.
  replace (Z.to_nat (Z.of_nat (length before)
                     - (Z.of_nat (length before) - Z.of_nat (length (keptBefore before)))))
    with (length (keptBefore before)) by lia.
  replace (Z.to_nat (Z.of_nat (length before) + Z.of_nat j
                     - (Z.of_nat (length before) - Z.of_nat (length (keptBefore before)))))
    with (length (keptBefore before) + j) by lia.
  cbv zeta.
  rewrite take_app, take_ge, Nat.sub_diag, take_0, app_nil_r by lia.
  rewrite drop_app, drop_ge by lia.
  replace (length (keptBefore before) + j - length (keptBefore before)) with j by lia.
  simpl app.
  destruct (scanned_then_trimmed (rev before)) as [Hsp Hen].
  rewrite <- keptBefore_alt in Hsp, Hen.
  unfold count_spaces in Hsp. rewrite filter_length_rev in Hsp, Hen.
  destruct (keptAfter_tail_bounded c after j Hc) as [Hsp' Hen'].
  auto.
Qed.

Lemma sentence_context_is_bounded_witness :
  exists sentence off,
    sentenceOfLine "one two three four five six seven eight nine ten eleven twelve" 28 33
    = Some sentence
    /\ sentenceStart "one two three four five six seven eight nine ten eleven twelve" 28 33
       = Some off
    /\ let units := list_ascii_of_string sentence in
       let left := take (Z.to_nat (28 - off)) units in
       let right := drop (Z.to_nat (33 - off)) units in
       count_spaces left <= 4
       /\ length (List.filter isEnding left) = 0
       /\ count_spaces right <= 4
       /\ length (List.filter isEnding right) = 0.
Proof.
  apply (sentence_context_is_bounded
           "one two three four five six seven eight nine ten eleven twelve" 28 33
           "s"%char); [lia | reflexivity | reflexivity].
Defined.

(** ** Cache-or-fetch: every outcome *)

Section ProcessFacts.

Context {World : Type} (api : DatamuseApi World).

(** The four ways a process call can go: no cache to ask (a [TypeError]), a
    hit, a miss with an answer, a miss with a failed fetch. *)
Lemma process_cases (cat : Category) (w : string) (st : State World) :
  match wordy_prop (heap st) (caches st) (category_key cat) with
  | None => process api cat w st = (None, st)
  | Some cache =>
      match heap st !! cache with
      | Some (ObjSimpleWordCache c) =>
          if (0 <? length (SimpleWordCache.get c [w]))%nat
          then process api cat w st = (Some (SimpleWordCache.get c [w]), st)
          else
            match category_oracle api cat w (world st) with
            | (Some r, w') =>
                process api cat w st
                = (Some r,
                   {| heap := <[cache := ObjSimpleWordCache
                                           (SimpleWordCache.set c [w] r)]> (heap st);
                      caches := caches st; settings := settings st; world := w';
                      calls := calls st ++ [category_call cat w]; ui := ui st |})
            | (None, w') =>
                process api cat w st
                = (None,
                   {| heap := heap st; caches := caches st; settings := settings st;
                      world := w'; calls := calls st ++ [category_call cat w];
                      ui := ui st |})
            end
      | _ => process api cat w st = (None, st)
      end
  end.
Proof.
  rewrite process_unfold.
  destruct (wordy_prop (heap st) (caches st) (category_key cat)) as [cache|];
    [|reflexivity].
  unfold getCacheOrFetch, bind, m_cache_get, m_cache_set, call_api, ret,
    cache_get, cache_set.
  change (match cat with
          | Syn => wordsSimilarTo api w
          | Ant => wordsOppositeTo api w true
          | Rhy => wordsThatRhymeWith api w
          end) with (category_oracle api cat w).
  destruct (heap st !! cache) as [[c|props]|] eqn:E; try reflexivity.
  destruct (0 <? length (SimpleWordCache.get c [w]))%nat; [reflexivity|].
  destruct (category_oracle api cat w (world st)) as [[r|] w']; [|reflexivity].
  cbn [heap]. rewrite E. reflexivity.
Qed.

(** A returned list is an entry of the cache's map: a hit found it there, a
    fetch put it there with [cache.set]. *)
Lemma process_returns_stored_entry (cat : Category) (w : string)
    (st st1 : State World) (r : list string) :
  process api cat w st = (Some r, st1) ->
  exists cache c1,
    wordy_prop (heap st1) (caches st1) (category_key cat) = Some cache
    /\ heap st1 !! cache = Some (ObjSimpleWordCache c1)
    /\ SimpleWordCache.map c1 !! Some w = Some r.
Proof.
  intros H. pose proof (process_cases cat w st) as Hc.
  destruct (wordy_prop (heap st) (caches st) (category_key cat)) as [cache|] eqn:Hp;
    [|congruence].
  exists cache.
  destruct (heap st !! cache) as [[c|props]|] eqn:E; try congruence.
  destruct (0 <? length (SimpleWordCache.get c [w]))%nat eqn:Hlen.
  - rewrite Hc in H. inversion H; subst. exists c.
    split; [exact Hp|]. split; [exact E|].
    unfold SimpleWordCache.get in *. simpl in *.
    destruct (SimpleWordCache.map c !! Some w); [reflexivity|discriminate].
  - destruct (category_oracle api cat w (world st)) as [[r'|] w']; [|congruence].
    rewrite Hc in H. inversion H; subst. cbn [heap caches].
    exists (SimpleWordCache.set c [w] r). split; [|split].
    + unfold wordy_prop in *. destruct (decide (cache = caches st)) as [->|Hne].
      * now rewrite E in Hp.
      * now rewrite lookup_insert_ne.
    + apply lookup_insert_eq.
    + unfold SimpleWordCache.set. simpl. apply lookup_insert_eq.
Qed.

(** X6. Whatever list a process call returns is afterwards an entry of the
    map of the category's cache, under the word as key: the list of a hit is
    the entry that was found, the list of a fetch (the empty list too) is
    the entry that [cache.set] wrote before the call returned; so [get] for
    the word returns that list. *)
Theorem process_result_is_cached (cat : Category) (w : string)
    (st st1 : State World) (r : list string) :
  process api cat w st = (Some r, st1) ->
  exists cache c1,
    wordy_prop (heap st1) (caches st1) (category_key cat) = Some cache
    /\ heap st1 !! cache = Some (ObjSimpleWordCache c1)
    /\ SimpleWordCache.map c1 !! Some w = Some r
    /\ cache_get (heap st1) cache [w] = Some r.
Proof.
  intros H.
  destruct (process_returns_stored_entry cat w st st1 r H)
    as (cache & c1 & Hp & Hl & Hm).
  exists cache, c1. split; [exact Hp|]. split; [exact Hl|]. split; [exact Hm|].
  unfold cache_get, SimpleWordCache.get. rewrite Hl. simpl. now rewrite Hm.
Qed.

(** X7. An empty answer is stored but never served: after a process call
    that returned the empty list, the map of the category's cache has an
    entry for the word whose list is empty, and the next process call for
    the same category and word asks the client again. *)
Theorem empty_result_is_fetched_again (cat : Category) (w : string)
    (st st1 : State World) :
  process api cat w st = (Some [], st1) ->
  calls (snd (process api cat w st1)) = calls st1 ++ [category_call cat w]
  /\ exists cache c1,
       wordy_prop (heap st1) (caches st1) (category_key cat) = Some cache
       /\ heap st1 !! cache = Some (ObjSimpleWordCache c1)
       /\ SimpleWordCache.map c1 !! Some w = Some [].
Proof.
  intros H.
  destruct (process_returns_stored_entry cat w st st1 [] H)
    as (cache & c1 & Hp & Hl & Hm).
  split; [|eauto].
  pose proof (process_cases cat w st1) as Hc. rewrite Hp, Hl in Hc.
  assert (SimpleWordCache.get c1 [w] = []) as Hg
    by (unfold SimpleWordCache.get; simpl; now rewrite Hm).
  rewrite Hg in Hc. simpl in Hc.
  destruct (category_oracle api cat w (world st1)) as [[r'|] w'];
    rewrite Hc; reflexivity.
Qed.

End ProcessFacts.

Lemma getRootSelection_total (editor : Editor) :
  exists r, getRootSelection editor = Some r.
Proof.
  unfold getRootSelection, getSentenceUnderCursor.
  destruct (negb (String.eqb (getSelection editor) "")).
  - destruct (sentenceOfLine_returns
                (getLine editor (line (getCursor_from editor)))
                (ch (getCursor_from editor)) (ch (getCursor_to editor)))
      as (a & b & E).
    rewrite E. eauto.
  - destruct (wordAt editor (getCursor editor)) as [[sFrom sTo]|]; [|eauto].
    destruct (sentenceOfLine_returns (getLine editor (line sFrom)) (ch sFrom) (ch sTo))
      as (a & b & E).
    rewrite E. eauto.
Qed.

Section SessionFacts.

Context {World : Type} (api : DatamuseApi World).

(** A process call changes the heap in at most one place: the entry of its
    word in the cache instance of its category, and only when that entry was
    empty. *)
Lemma process_heap_cases (cat : Category) (w : string) (st : State World) :
  heap (snd (process api cat w st)) = heap st
  \/ exists cache c r,
       wordy_prop (heap st) (caches st) (category_key cat) = Some cache
       /\ heap st !! cache = Some (ObjSimpleWordCache c)
       /\ SimpleWordCache.get c [w] = []
       /\ heap (snd (process api cat w st))
          = <[cache := ObjSimpleWordCache (SimpleWordCache.set c [w] r)]> (heap st).
Proof.
  pose proof (process_cases api cat w st) as Hc.
  destruct (wordy_prop (heap st) (caches st) (category_key cat)) as [cache|];
    [|rewrite Hc; now left].
  destruct (heap st !! cache) as [[c|props]|] eqn:E; try (rewrite Hc; now left).
  destruct (0 <? length (SimpleWordCache.get c [w]))%nat eqn:Hlen;
    [rewrite Hc; now left|].
  destruct (category_oracle api cat w (world st)) as [[r|] w'];
    rewrite Hc; [right|now left].
  exists cache, c, r. split; [reflexivity|]. split; [exact E|].
  split; [|reflexivity].
  destruct (SimpleWordCache.get c [w]); [reflexivity|discriminate].
Qed.

Lemma command_runs_process (cat : Category) (editor : Editor) (st : State World) :
  exists w,
    heap (snd (createCommandModal editor (process api cat) st))
    = heap (snd (process api cat w st))
    /\ caches (snd (createCommandModal editor (process api cat) st))
       = caches (snd (process api cat w st)).
Proof.
  destruct (getRootSelection_total editor) as [r Hr].
  exists (word r). unfold createCommandModal, bind, lift_option, ret. rewrite Hr.
  destruct (process api cat (word r) st) as [[results|] st1]; [|auto].
  destruct (length results =? 0)%nat; auto.
Qed.

Lemma menu_runs_process (cat : Category) (editor : Editor) (menu : list MenuEntry)
    (st : State World) :
  exists w,
    heap (snd (createWordMenu menu editor (fun w _ => process api cat w) st))
    = heap (snd (process api cat w st))
    /\ caches (snd (createWordMenu menu editor (fun w _ => process api cat w) st))
       = caches (snd (process api cat w st)).
Proof.
  destruct (getRootSelection_total editor) as [r Hr].
  exists (word r). unfold createWordMenu, bind, lift_option, ret. rewrite Hr.
  destruct (process api cat (word r) st) as [[results|] st1]; auto.
Qed.

Lemma alliterative_keeps_heap (editor : Editor) (st : State World) :
  heap (snd (alliterativeSynonymsCommand api editor st)) = heap st
  /\ caches (snd (alliterativeSynonymsCommand api editor st)) = caches st.
Proof.
  unfold alliterativeSynonymsCommand, bind, call_api, emit.
  destruct (loose_neq_empty _); [|auto].
  destruct (alliterativeSynonyms api _ _ (world st)) as [[results|] w']; [|auto].
  destruct (length results =? 0)%nat; auto.
Qed.

(** Every event changes the heap as one process call does, or not at all,
    and leaves the field [caches] as it is or sets it to [EMPTY_CACHE]. *)
Lemma event_heap_cases (e : Event) (st : State World) :
  (heap (run_event api e st) = heap st
   \/ exists cat w, heap (run_event api e st) = heap (snd (process api cat w st)))
  /\ (caches (run_event api e st) = caches st
      \/ caches (run_event api e st) = EMPTY_CACHE).
Proof.
  destruct e as [c w|c editor|c editor|editor| |s]; simpl.
  - split; [right; eauto|left; apply process_keeps_caches_field].
  - destruct (command_runs_process c editor st) as (w & Hh & Hc).
    rewrite Hh, Hc. split; [right; eauto|left; apply process_keeps_caches_field].
  - destruct (menu_runs_process c editor [] st) as (w & Hh & Hc).
    rewrite Hh, Hc. split; [right; eauto|left; apply process_keeps_caches_field].
  - destruct (alliterative_keeps_heap editor st) as [Hh Hc]. auto.
  - auto.
  - auto.
Qed.

Lemma category_loc_of_key (st : State World) (cat : Category) :
  module_shape st ->
  wordy_prop (heap st) (caches st) (category_key cat) = Some (category_loc cat).
Proof.
  intros (Hc & Hobj & _). unfold wordy_prop. rewrite Hc, Hobj.
  destruct cat; vm_compute; reflexivity.
Qed.

Lemma module_shape_new (w0 : World) : module_shape (new_plugin w0).
Proof.
  split; [reflexivity|]. split; [reflexivity|].
  intros []; exists SimpleWordCache.new; reflexivity.
Qed.

Lemma module_shape_process (cat : Category) (w : string) (st : State World) :
  module_shape st -> module_shape (snd (process api cat w st)).
Proof.
  intros Hs. pose proof Hs as (Hc & Hobj & Hcat).
  split; [now rewrite process_keeps_caches_field|].
  destruct (process_heap_cases cat w st) as [->|(cache & c & r & Hp & Hl & _ & ->)];
    [auto|].
  rewrite (category_loc_of_key st cat Hs) in Hp. injection Hp as <-.
  split.
  - rewrite lookup_insert_ne; [exact Hobj|]. destruct cat; discriminate.
  - intros c'. destruct (decide (category_loc cat = category_loc c')) as [->|Hne].
    + rewrite lookup_insert_eq. eauto.
    + rewrite lookup_insert_ne by assumption. apply Hcat.
Qed.

Lemma module_shape_event (e : Event) (st : State World) :
  module_shape st -> module_shape (run_event api e st).
Proof.
  intros Hs. pose proof Hs as (Hc & Hobj & Hcat).
  destruct (event_heap_cases e st) as [Hh Hcs].
  assert (caches (run_event api e st) = EMPTY_CACHE) as Hc'
    by (destruct Hcs; congruence).
  destruct Hh as [Hh|(cat & w & Hh)].
  - split; [exact Hc'|]. rewrite Hh. auto.
  - destruct (module_shape_process cat w st Hs) as (_ & Hobj' & Hcat').
    split; [exact Hc'|]. rewrite Hh. auto.
Qed.

Lemma module_shape_session (es : list Event) (st : State World) :
  module_shape st -> module_shape (run_events api es st).
Proof.
  revert st. induction es as [|e es IH]; intros st Hs; [exact Hs|].
  simpl. apply IH, module_shape_event, Hs.
Qed.

End SessionFacts.

(** ** Sessions: what no sequence of events changes *)

Section SessionClaims.

Context {World : Type} (api : DatamuseApi World).

(** X8. In every state that a fresh plugin reaches by any sequence of
    lookups, commands, menu flows, cache clearings and settings changes, a
    process call never fails for want of a cache: it returns a list, or else
    the client was asked and failed, in which case the call is recorded and
    the heap is unchanged. *)
Theorem session_lookup_fails_only_with_client (es : list Event) (w0 : World)
    (cat : Category) (w : string) :
  let st := run_events api es (new_plugin w0) in
  (exists r st1, process api cat w st = (Some r, st1))
  \/ (exists w' st1,
        category_oracle api cat w (world st) = (None, w')
        /\ process api cat w st = (None, st1)
        /\ calls st1 = calls st ++ [category_call cat w]
        /\ heap st1 = heap st).
Proof.
  intros st.
  assert (module_shape st) as Hs
    by apply module_shape_session, module_shape_new.
  pose proof (process_cases api cat w st) as Hc.
  rewrite (category_loc_of_key st cat Hs) in Hc.
  destruct Hs as (_ & _ & Hcat). destruct (Hcat cat) as [c Hl]. rewrite Hl in Hc.
  destruct (0 <? length (SimpleWordCache.get c [w]))%nat; [left; eauto|].
  destruct (category_oracle api cat w (world st)) as [[r|] w']; [left; eauto|].
  right. eexists _, _. split; [reflexivity|]. split; [exact Hc|]. auto.
Qed.

(** X9. In every state that a fresh plugin reaches by any sequence of
    events, the "Clear cache" button shows its notice and removes nothing:
    each category still leads to the same cache instance, and that instance
    returns for every key list what it returned before. *)
Theorem clear_cache_never_removes (es : list Event) (w0 : World)
    (cat : Category) (k : list string) :
  let st := run_events api es (new_plugin w0) in
  let st' := snd (clearCache st) in
  ui st' = ui st ++ [Notice "Cache cleared."]
  /\ wordy_prop (heap st) (caches st) (category_key cat) = Some (category_loc cat)
  /\ wordy_prop (heap st') (caches st') (category_key cat) = Some (category_loc cat)
  /\ cache_get (heap st') (category_loc cat) k
     = cache_get (heap st) (category_loc cat) k.
Proof.
  intros st st'.
  assert (module_shape st) as Hs
    by apply module_shape_session, module_shape_new.
  assert (module_shape st') as Hs'
    by apply (module_shape_event api EvClearCache st Hs).
  split; [reflexivity|].
  split; [apply category_loc_of_key, Hs|].
  split; [apply category_loc_of_key, Hs'|reflexivity].
Qed.

End SessionClaims.

(** ** Cache-or-fetch: what a call leaves alone *)

Section ProcessClaims.

Context {World : Type} (api : DatamuseApi World).

(** X11. A process call changes at most the entry of its own word in the
    cache of its own category: for every other cache instance, and for every
    key list with another first element, [get] returns afterwards what it
    returned before, whether the call hit, fetched, or failed. *)
Theorem process_touches_one_entry (cat : Category) (w : string)
    (st : State World) (cache' : loc) (k : list string) :
  wordy_prop (heap st) (caches st) (category_key cat) <> Some cache'
  \/ head k <> Some w ->
  cache_get (heap (snd (process api cat w st))) cache' k
  = cache_get (heap st) cache' k.
Proof.
  intros Hother.
  destruct (process_heap_cases api cat w st)
    as [->|(cache & c & r & Hp & Hl & _ & ->)]; [reflexivity|].
  unfold cache_get.
  destruct (decide (cache = cache')) as [->|Hne].
  - destruct Hother as [Hother|Hk]; [congruence|].
    rewrite lookup_insert_eq, Hl. f_equal.
    unfold SimpleWordCache.get, SimpleWordCache.set. simpl.
    rewrite lookup_insert_ne by congruence. reflexivity.
  - rewrite lookup_insert_ne by assumption. reflexivity.
Qed.

Lemma process_throw_keeps (cat : Category) (w : string) (st : State World) :
  fst (process api cat w st) = None ->
  heap (snd (process api cat w st)) = heap st
  /\ ui (snd (process api cat w st)) = ui st.
Proof.
  pose proof (process_cases api cat w st) as Hc.
  destruct (wordy_prop (heap st) (caches st) (category_key cat)) as [cache|];
    [|rewrite Hc; auto].
  destruct (heap st !! cache) as [[c|props]|]; try (rewrite Hc; auto).
  destruct (0 <? length (SimpleWordCache.get c [w]))%nat;
    [rewrite Hc; discriminate|].
  destruct (category_oracle api cat w (world st)) as [[r|] w']; rewrite Hc;
    [discriminate|auto].
Qed.

(** X12. When the lookup of the target word throws (the fetch failed), the
    command flow and the menu flow throw as well: no notice and no picker is
    shown, no menu is built, and every cache is as before. *)
Theorem failed_lookup_shows_nothing (cat : Category) (editor : Editor)
    (menu : list MenuEntry) (st : State World) (r : RootSelection) :
  getRootSelection editor = Some r ->
  fst (process api cat (word r) st) = None ->
  let st1 := snd (process api cat (word r) st) in
  createCommandModal editor (process api cat) st = (None, st1)
  /\ createWordMenu menu editor (fun w _ => process api cat w) st = (None, st1)
  /\ ui st1 = ui st
  /\ heap st1 = heap st.
Proof.
  intros Hr Hnone st1.
  destruct (process_throw_keeps cat (word r) st Hnone) as [Hh Hu].
  unfold createCommandModal, createWordMenu, bind, lift_option, ret.
  rewrite Hr. subst st1.
  destruct (process api cat (word r) st) as [[results|] st1'];
    [discriminate|auto].
Qed.

End ProcessClaims.

(** X13. In one cache, a later [set] for the same first key element
    replaces the earlier list, and [set]s for different first key elements
    do not disturb each other: they give the same cache in either order. *)
Theorem cache_sets_overwrite_or_commute (c : SimpleWordCache.t)
    (k1 k2 r1 r2 : list string) :
  SimpleWordCache.set (SimpleWordCache.set c k1 r1) k2 r2
  = if decide (head k2 = head k1) then SimpleWordCache.set c k2 r2
    else SimpleWordCache.set (SimpleWordCache.set c k2 r2) k1 r1.
Proof.
  unfold SimpleWordCache.set. simpl. rewrite insert_insert.
  destruct (decide (head k2 = head k1)); reflexivity.
Qed.

(** Runs of the theorems above on a fresh plugin. *)

Lemma process_result_is_cached_witness :
  let api :=
    {| wordsSimilarTo := fun _ (u : unit) => (Some ["glad"], u);
       wordsOppositeTo := fun _ _ u => (Some [], u);
       wordsThatRhymeWith := fun _ u => (Some [], u);
       alliterativeSynonyms := fun _ _ u => (None, u) |} in
  let st1 := snd (process api Syn "happy" (new_plugin tt)) in
  exists cache c1,
    wordy_prop (heap st1) (caches st1) (category_key Syn) = Some cache
    /\ heap st1 !! cache = Some (ObjSimpleWordCache c1)
    /\ SimpleWordCache.map c1 !! Some "happy" = Some ["glad"]
    /\ cache_get (heap st1) cache ["happy"] = Some ["glad"].
Proof.
  intros api st1.
  apply (process_result_is_cached api Syn "happy" (new_plugin tt) st1 ["glad"]).
  subst st1. simpl process. rewrite processSynonyms_fresh. reflexivity.
Defined.

Lemma empty_result_is_fetched_again_witness :
  let api :=
    {| wordsSimilarTo := fun _ (u : unit) => (Some [], u);
       wordsOppositeTo := fun _ _ u => (Some [], u);
       wordsThatRhymeWith := fun _ u => (Some [], u);
       alliterativeSynonyms := fun _ _ u => (None, u) |} in
  let st1 := snd (process api Syn "xyzzy" (new_plugin tt)) in
  calls (snd (process api Syn "xyzzy" st1)) = calls st1 ++ [category_call Syn "xyzzy"]
  /\ exists cache c1,
       wordy_prop (heap st1) (caches st1) (category_key Syn) = Some cache
       /\ heap st1 !! cache = Some (ObjSimpleWordCache c1)
       /\ SimpleWordCache.map c1 !! Some "xyzzy" = Some [].
Proof.
  intros api st1.
  apply (empty_result_is_fetched_again api Syn "xyzzy" (new_plugin tt) st1).
  subst st1. simpl process. rewrite processSynonyms_fresh. reflexivity.
Defined.

Lemma process_touches_one_entry_witness :
  let api :=
    {| wordsSimilarTo := fun _ (u : unit) => (Some ["glad"], u);
       wordsOppositeTo := fun _ _ u => (Some [], u);
       wordsThatRhymeWith := fun _ u => (Some [], u);
       alliterativeSynonyms := fun _ _ u => (None, u) |} in
  cache_get (heap (snd (process api Syn "happy" (new_plugin tt)))) 1%positive ["sad"]
  = cache_get (heap (new_plugin tt)) 1%positive ["sad"].
Proof.
  intros api.
  apply (process_touches_one_entry api Syn "happy" (new_plugin tt) 1%positive ["sad"]).
  right. discriminate.
Defined.

Lemma failed_lookup_shows_nothing_witness :
  let api :=
    {| wordsSimilarTo := fun _ (u : unit) => (None, u);
       wordsOppositeTo := fun _ _ u => (Some [], u);
       wordsThatRhymeWith := fun _ u => (Some [], u);
       alliterativeSynonyms := fun _ _ u => (None, u) |} in
  let editor :=
    {| getSelection := "happy"; getCursor := {| line := 0; ch := 5 |};
       getCursor_from := {| line := 0; ch := 0 |};
       getCursor_to := {| line := 0; ch := 5 |};
       wordAt := fun _ => None; getLine := fun _ => "happy days";
       getRange := fun _ _ => "" |} in
  let r := {| word := "happy"; from := {| line := 0; ch := 0 |};
              to := {| line := 0; ch := 5 |}; sentence := "happy days" |} in
  let st1 := snd (process api Syn (word r) (new_plugin tt)) in
  createCommandModal editor (process api Syn) (new_plugin tt) = (None, st1)
  /\ createWordMenu [] editor (fun w _ => process api Syn w) (new_plugin tt)
     = (None, st1)
  /\ ui st1 = ui (new_plugin tt)
  /\ heap st1 = heap (new_plugin tt).
Proof.
  intros api editor r.
  apply (failed_lookup_shows_nothing api Syn editor [] (new_plugin tt) r).
  - vm_compute. reflexivity.
  - simpl process. rewrite processSynonyms_fresh. reflexivity.
Defined.

(** ** The rendered menu: every maximum *)

(** X14. For every maximum m with 0 <= m < the number of results, the menu
    receives the first m results in order, one entry each, then a separator
    and one "More... (k)" entry that opens the picker over all results, where
    k is the number of results that got no entry. *)
Theorem menu_overflow_counts_hidden_results {World : Type} (st : State World)
    (menu : list MenuEntry) (words : list string) (from to : EditorPosition) :
  (0 <= editorMenuMaxResults (settings st) < Z.of_nat (length words))%Z ->
  let m := Z.to_nat (editorMenuMaxResults (settings st)) in
  createMenuForWords st menu words from to
  = menu
    ++ map (fun w => MenuItem w (Some (ReplaceRange w from to))) (take m words)
    ++ [Separator;
        MenuItem
          ("More... ("
           ++ Js.numToString (Z.of_nat (length (drop m words))) ++ ")")
          (Some (OpenModal words (ReplaceRangeAt from to)))]
  /\ length (take m words) = m.
Proof.
  intros Hm m. rewrite createMenuForWords_entries.
  destruct (Z.ltb_spec (editorMenuMaxResults (settings st))
              (Z.of_nat (length words))); [|lia].
  unfold Js.slice0.
  destruct (Z.ltb_spec (editorMenuMaxResults (settings st)) 0); [lia|].
  destruct (Nat.eqb_spec (length words) 0); [lia|].
  rewrite length_drop, length_take. fold m.
  replace (Z.of_nat (length words - m))
    with (Z.of_nat (length words) - editorMenuMaxResults (settings st))%Z by lia.
  split; [reflexivity|lia].
Qed.

Lemma menu_overflow_counts_hidden_results_witness :
  let p := {| line := 0; ch := 0 |} in
  let st :=
    {| heap := module_heap; caches := EMPTY_CACHE;
       settings :=
         {| toggleEditorMenu := true; toggleSynonymEditorMenu := true;
            toggleAntonymEditorMenu := true; toggleRhymeEditorMenu := true;
            toggleSuggestionsEditorMenu := true; editorMenuMaxResults := 2;
            suggestionsMaxResults := 10 |};
       world := tt; calls := []; ui := [] |} in
  let words := ["a"; "b"; "c"; "d"; "e"] in
  let m := Z.to_nat (editorMenuMaxResults (settings st)) in
  createMenuForWords st [] words p p
  = []
    ++ map (fun w => MenuItem w (Some (ReplaceRange w p p))) (take m words)
    ++ [Separator;
        MenuItem
          ("More... ("
           ++ Js.numToString (Z.of_nat (length (drop m words))) ++ ")")
          (Some (OpenModal words (ReplaceRangeAt p p)))]
  /\ length (take m words) = m.
Proof.
  intros p st words.
  apply (menu_overflow_counts_hidden_results st [] words p p). simpl. lia.
Defined.

(** X15. The menu only grows, and each entry it receives is bound to what it
    shows: an entry that replaces text replaces the captured range with the
    very word in its title, which is one of the results; the overflow entry
    opens the picker over all results, bound to the captured range; an entry
    without click action is the "No results found." item of an empty result
    list. *)
Theorem menu_entries_do_what_they_show {World : Type} (st : State World)
    (menu : list MenuEntry) (words : list string) (from to : EditorPosition) :
  exists added,
    createMenuForWords st menu words from to = menu ++ added
    /\ Forall
         (fun e =>
            match e with
            | MenuItem title (Some (ReplaceRange w f t)) =>
                w = title /\ In w words /\ f = from /\ t = to
            | MenuItem title (Some (OpenModal ws rf)) =>
                ws = words /\ rf = ReplaceRangeAt from to
            | MenuItem title None => title = "No results found." /\ words = []
            | Separator => True
            end) added.
Proof.
  rewrite createMenuForWords_entries. eexists. split; [reflexivity|].
  apply Forall_app. split.
  { destruct words; simpl; repeat constructor. }
  apply Forall_app. split.
  - apply Forall_map.
    assert (Forall (fun w => In w words) words) as Hall
      by (apply List.Forall_forall; auto).
    assert (forall n, Forall (fun w => In w words) (take n words)) as Htake
      by (intros n; apply Forall_take, Hall).
    unfold Js.slice0.
    destruct (editorMenuMaxResults (settings st) <? 0)%Z;
      (eapply List.Forall_impl; [|apply Htake]); simpl; auto.
  - destruct (editorMenuMaxResults (settings st) <? Z.of_nat (length words))%Z;
      repeat constructor.
Qed.



(** ** The scans and the span *)

(** X17. For a span that starts inside the line and satisfies from <= to,
    both scans return, the backward one at or before the span's start and
    not below 0, the forward one at or after the span's end, and not beyond
    the end of the line when the span ends inside the line: the window that
    [substring] cuts always covers the span. *)
Theorem window_covers_span (text : string) (from_ch to_ch : Z) :
  (0 <= from_ch < Z.of_nat (String.length text))%Z ->
  (from_ch <= to_ch)%Z ->
  exists start end_ reads1 reads2,
    findWordBoundaries text from_ch (-1) = Some (start, reads1)
    /\ findWordBoundaries text to_ch 1 = Some (end_, reads2)
    /\ (0 <= start <= from_ch)%Z
    /\ (to_ch <= end_)%Z
    /\ (end_ <= Z.max to_ch (Z.of_nat (String.length text)))%Z.
Proof.
  intros Hf Ht. unfold findWordBoundaries.
  destruct (loop_backward text (S (String.length text)) 0 from_ch)
    as [reads1 E1]; [lia|lia|].
  rewrite E1. cbv zeta.
  set (r := scan 0 (rev (take (Z.to_nat (from_ch + 1)) (list_ascii_of_string text)))).
  assert (0 <= (if snd r then from_ch - Z.of_nat (fst r)
                else from_ch - Z.of_nat (fst r) + 1) <= from_ch)%Z as Hb.
  { pose proof (scan_length
                  (rev (take (Z.to_nat (from_ch + 1)) (list_ascii_of_string text)))
                  0%Z) as Hlen.
    rewrite length_rev, length_take, length_list_ascii in Hlen. fold r in Hlen.
    destruct (index_in_range text from_ch Hf) as (c & Hc & _).
    assert (r = scan 0 (c :: rev (take (Z.to_nat from_ch) (list_ascii_of_string text))))
      as Hr.
    { unfold r. replace (Z.to_nat (from_ch + 1)) with (S (Z.to_nat from_ch)) by lia.
      now rewrite (take_S_r _ _ _ Hc), rev_app_distr. }
    destruct (snd r) eqn:Es.
    - destruct (scan_halt _ 0%Z Es) as (c' & Hc' & _).
      apply lookup_lt_Some in Hc'.
      rewrite length_rev, length_take, length_list_ascii in Hc'. fold r in Hc'. lia.
    - assert (1 <= fst r); [|lia].
      rewrite Hr in Es |- *. simpl in Es |- *.
      destruct (isEnding c); simpl in Es |- *; [discriminate|lia]. }
  destruct (Z.lt_ge_cases to_ch (Z.of_nat (String.length text))) as [Hin|Hout].
  - destruct (loop_forward text (S (String.length text)) 0 to_ch)
      as [reads2 E2]; [lia|lia|].
    rewrite E2.
    pose proof (scan_length (drop (Z.to_nat to_ch) (list_ascii_of_string text)) 0%Z)
      as Hlen.
    rewrite length_drop, length_list_ascii in Hlen.
    eexists _, _, reads1, reads2. repeat split; try lia.
  - rewrite loop_outside by lia. simpl.
    eexists _, _, reads1, []. repeat split; lia.
Qed.

Lemma window_covers_span_witness :
  exists start end_ reads1 reads2,
    findWordBoundaries "Yes. No" 5 (-1) = Some (start, reads1)
    /\ findWordBoundaries "Yes. No" 7 1 = Some (end_, reads2)
    /\ (0 <= start <= 5)%Z
    /\ (7 <= end_)%Z
    /\ (end_ <= Z.max 7 (Z.of_nat (String.length "Yes. No")))%Z.
Proof.
  apply (window_covers_span "Yes. No" 5 7); simpl; lia.
Defined.

(** ** The alliterative-synonym command: every selection *)

Lemma list_ascii_app (a b : string) :
  list_ascii_of_string (a ++ b)
  = list_ascii_of_string a ++ list_ascii_of_string b.
Proof. induction a as [|c a IH]; simpl; [reflexivity|now rewrite IH]. Qed.

Lemma split_aux_no_space (l : list ascii) :
  forall cur,
    existsb (fun c => Ascii.eqb c " "%char) l = false ->
    Js.split_space_aux cur l = [string_of_list_ascii (rev cur ++ l)].
Proof.
  induction l as [|c l IH]; intros cur; simpl.
  - now rewrite app_nil_r.
  - destruct (Ascii.eqb c " "%char); [discriminate|].
    intros H. rewrite IH by assumption. simpl. now rewrite <- app_assoc.
Qed.

Lemma split_aux_space (lp lt : list ascii) :
  forall cur,
    existsb (fun c => Ascii.eqb c " "%char) lp = false ->
    Js.split_space_aux cur (lp ++ " "%char :: lt)
    = string_of_list_ascii (rev cur ++ lp) :: Js.split_space_aux [] lt.
Proof.
  induction lp as [|c lp IH]; intros cur; simpl.
  - now rewrite app_nil_r.
  - destruct (Ascii.eqb c " "%char); [discriminate|].
    intros H. rewrite IH by assumption. simpl. now rewrite <- app_assoc.
Qed.

Lemma split_two_pieces (prior root rest : string) :
  existsb (fun c => Ascii.eqb c " "%char) (list_ascii_of_string prior) = false ->
  existsb (fun c => Ascii.eqb c " "%char) (list_ascii_of_string root) = false ->
  match rest with
  | EmptyString => true
  | String c _ => Ascii.eqb c " "%char
  end = true ->
  exists pieces, Js.split_space (prior ++ " " ++ root ++ rest) = prior :: root :: pieces.
Proof.
  intros Hp Hr Hrest. unfold Js.split_space.
  assert (list_ascii_of_string (prior ++ " " ++ root ++ rest)
          = list_ascii_of_string prior
            ++ " "%char :: (list_ascii_of_string root ++ list_ascii_of_string rest))
    as ->.
  { rewrite (list_ascii_app prior (" " ++ root ++ rest)),
      (list_ascii_app " " (root ++ rest)), (list_ascii_app root rest).
    reflexivity. }
  rewrite split_aux_space by assumption. cbn [rev app].
  rewrite string_of_list_ascii_of_string.
  destruct rest as [|c rest].
  - change (list_ascii_of_string "") with (@nil ascii).
    rewrite app_nil_r, split_aux_no_space by assumption. cbn [rev app].
    rewrite string_of_list_ascii_of_string. eauto.
  - apply Ascii.eqb_eq in Hrest as ->.
    change (list_ascii_of_string (String " "%char rest))
      with (" "%char :: list_ascii_of_string rest).
    rewrite split_aux_space by assumption. cbn [rev app].
    rewrite string_of_list_ascii_of_string. eauto.
Qed.

Section AlliterativeClaims.

Context {World : Type} (api : DatamuseApi World).

(** X18. For every selection without a space, the empty selection included,
    the alliterative command takes the whole selection as first word and
    [undefined] as root word and asks the client with them; it never shows
    "Select a word first.": it shows the "No rhymes found." notice for an
    empty answer, the picker bound to the selection for a non-empty one,
    nothing if the client fails; and it never touches the caches. *)
Theorem alliterative_without_space_passes_undefined (editor : Editor)
    (st : State World) :
  existsb (fun c => Ascii.eqb c " "%char)
    (list_ascii_of_string (getSelection editor)) = false ->
  let sel := getSelection editor in
  let st1 := snd (alliterativeSynonymsCommand api editor st) in
  calls st1 = calls st ++ [AlliterativeSynonyms (Some sel) None]
  /\ heap st1 = heap st
  /\ ui st1
     = match fst (alliterativeSynonyms api (Some sel) None (world st)) with
       | None => ui st
       | Some [] => ui st ++ [Notice "Oops — No rhymes found."]
       | Some results => ui st ++ [ModalOpened results ReplaceSelection]
       end.
Proof.
  intros Hsel sel st1. subst st1.
  unfold alliterativeSynonymsCommand, bind, call_api, emit, Js.split_space.
  rewrite split_aux_no_space by assumption. cbn [rev app].
  rewrite string_of_list_ascii_of_string. fold sel. simpl.
  destruct (alliterativeSynonyms api (Some sel) None (world st))
    as [[[|x results]|] w']; simpl; auto.
Qed.

(** X19. For every selection of the form prior, space, root, followed by
    nothing or by a space and anything, where prior and root hold no space:
    the command uses prior and root, and ignores what follows.  With an empty
    root (the selection ends in a space after prior, or has two spaces
    there) it shows "Select a word first." and asks nothing; otherwise it
    asks the client once, with prior and root. *)
Theorem alliterative_uses_first_two_pieces (editor : Editor) (st : State World)
    (prior root rest : string) :
  getSelection editor = (prior ++ " " ++ root ++ rest)%string ->
  existsb (fun c => Ascii.eqb c " "%char) (list_ascii_of_string prior) = false ->
  existsb (fun c => Ascii.eqb c " "%char) (list_ascii_of_string root) = false ->
  match rest with
  | EmptyString => true
  | String c _ => Ascii.eqb c " "%char
  end = true ->
  let st1 := snd (alliterativeSynonymsCommand api editor st) in
  if String.eqb root ""
  then calls st1 = calls st
       /\ ui st1 = ui st ++ [Notice "Oops — Select a word first."]
  else calls st1 = calls st ++ [AlliterativeSynonyms (Some prior) (Some root)]
       /\ ui st1
          = match fst (alliterativeSynonyms api (Some prior) (Some root) (world st)) with
            | None => ui st
            | Some [] => ui st ++ [Notice "Oops — No rhymes found."]
            | Some results => ui st ++ [ModalOpened results ReplaceSelection]
            end.
Proof.
  intros Hsel Hp Hr Hrest st1. subst st1.
  destruct (split_two_pieces prior root rest Hp Hr Hrest) as [pieces Hsplit].
  unfold alliterativeSynonymsCommand, bind, call_api, emit.
  rewrite Hsel, Hsplit. simpl.
  destruct (String.eqb root ""); simpl; [auto|].
  destruct (alliterativeSynonyms api (Some prior) (Some root) (world st))
    as [[[|x results]|] w']; simpl; auto.
Qed.

End AlliterativeClaims.

Lemma alliterative_without_space_passes_undefined_witness :
  let api :=
    {| wordsSimilarTo := fun _ (u : unit) => (Some [], u);
       wordsOppositeTo := fun _ _ u => (Some [], u);
       wordsThatRhymeWith := fun _ u => (Some [], u);
       alliterativeSynonyms := fun _ _ u => (Some ["bold"], u) |} in
  let editor :=
    {| getSelection := ""; getCursor := {| line := 0; ch := 0 |};
       getCursor_from := {| line := 0; ch := 0 |};
       getCursor_to := {| line := 0; ch := 0 |};
       wordAt := fun _ => None; getLine := fun _ => "";
       getRange := fun _ _ => "" |} in
  let st := new_plugin tt in
  let sel := getSelection editor in
  let st1 := snd (alliterativeSynonymsCommand api editor st) in
  calls st1 = calls st ++ [AlliterativeSynonyms (Some sel) None]
  /\ heap st1 = heap st
  /\ ui st1
     = match fst (alliterativeSynonyms api (Some sel) None (world st)) with
       | None => ui st
       | Some [] => ui st ++ [Notice "Oops — No rhymes found."]
       | Some results => ui st ++ [ModalOpened results ReplaceSelection]
       end.
Proof.
  intros api editor st.
  apply (alliterative_without_space_passes_undefined api editor st). reflexivity.
Defined.

Lemma alliterative_uses_first_two_pieces_witness :
  let api :=
    {| wordsSimilarTo := fun _ (u : unit) => (Some [], u);
       wordsOppositeTo := fun _ _ u => (Some [], u);
       wordsThatRhymeWith := fun _ u => (Some [], u);
       alliterativeSynonyms := fun _ _ u => (Some ["bold"], u) |} in
  let editor :=
    {| getSelection := "big brave dog"; getCursor := {| line := 0; ch := 0 |};
       getCursor_from := {| line := 0; ch := 0 |};
       getCursor_to := {| line := 0; ch := 13 |};
       wordAt := fun _ => None; getLine := fun _ => "big brave dog";
       getRange := fun _ _ => "" |} in
  let st := new_plugin tt in
  let st1 := snd (alliterativeSynonymsCommand api editor st) in
  if String.eqb "brave" ""
  then calls st1 = calls st
       /\ ui st1 = ui st ++ [Notice "Oops — Select a word first."]
  else calls st1 = calls st ++ [AlliterativeSynonyms (Some "big") (Some "brave")]
       /\ ui st1
          = match fst (alliterativeSynonyms api (Some "big") (Some "brave") (world st)) with
            | None => ui st
            | Some [] => ui st ++ [Notice "Oops — No rhymes found."]
            | Some results => ui st ++ [ModalOpened results ReplaceSelection]
            end.
Proof.
  intros api editor st.
  apply (alliterative_uses_first_two_pieces api editor st "big" "brave" " dog");
    reflexivity.
Defined.

(** ** The searchable picker *)

Lemma starts_with_refl (l : list ascii) : starts_with l l = true.
Proof.
  induction l as [|c l IH]; simpl; [reflexivity|].
  now rewrite Ascii.eqb_refl, IH.
Qed.

Lemma includes_units_refl (l : list ascii) : includes_units l l = true.
Proof. destruct l; simpl; [reflexivity|]. now rewrite Ascii.eqb_refl, starts_with_refl. Qed.

Lemma includes_units_nil (l : list ascii) : includes_units l [] = true.
Proof. destruct l; reflexivity. Qed.

Lemma lowerChar_idem (c : ascii) : Js.lowerChar (Js.lowerChar c) = Js.lowerChar c.
Proof.
  destruct c as [[] [] [] [] [] [] [] []]; vm_compute; reflexivity.
Qed.

Lemma toLowerCase_idem (s : string) :
  Js.toLowerCase (Js.toLowerCase s) = Js.toLowerCase s.
Proof.
  unfold Js.toLowerCase. rewrite list_ascii_of_string_of_list_ascii, map_map.
  f_equal. apply map_ext. intros c. apply lowerChar_idem.
Qed.

(** X20. In the picker, the empty query lists all words, in their order;
    every query lists only words of the picker; and every word of the picker
    is among the suggestions when it is itself typed as the query. *)
Theorem picker_suggestions_basics (this : SearchableWordsModal.t) (query : string) :
  SearchableWordsModal.getSuggestions this "" = SearchableWordsModal.words this
  /\ Forall (fun w => In w (SearchableWordsModal.words this))
       (SearchableWordsModal.getSuggestions this query)
  /\ Forall (fun w => In w (SearchableWordsModal.getSuggestions this w))
       (SearchableWordsModal.words this).
Proof.
  unfold SearchableWordsModal.getSuggestions. split; [|split].
  - rewrite <- (filter_true (SearchableWordsModal.words this)) at 2.
    apply List.filter_ext. intros w. unfold string_includes.
    apply includes_units_nil.
  - apply List.Forall_forall. intros w Hw. now apply List.filter_In in Hw.
  - apply List.Forall_forall. intros w Hw. apply List.filter_In.
    split; [exact Hw|]. apply includes_units_refl.
Qed.

(** X21. The picker ignores letter case: a query and its lowercase form give
    the same suggestions, and every word of the picker is found by typing
    its lowercase form. *)
Theorem picker_query_ignores_case (this : SearchableWordsModal.t) (query : string) :
  SearchableWordsModal.getSuggestions this (Js.toLowerCase query)
  = SearchableWordsModal.getSuggestions this query
  /\ Forall
       (fun w => In w (SearchableWordsModal.getSuggestions this (Js.toLowerCase w)))
       (SearchableWordsModal.words this).
Proof.
  unfold SearchableWordsModal.getSuggestions. split.
  - now rewrite toLowerCase_idem.
  - apply List.Forall_forall. intros w Hw. apply List.filter_In.
    split; [exact Hw|]. rewrite toLowerCase_idem. apply includes_units_refl.
Qed.

(** ** The command and its picker *)

Section CommandClaims.

Context {World : Type} (api : DatamuseApi World).

Lemma process_keeps_ui (cat : Category) (w : string) (st : State World) :
  ui (snd (process api cat w st)) = ui st.
Proof.
  pose proof (process_cases api cat w st) as Hc.
  destruct (wordy_prop (heap st) (caches st) (category_key cat)) as [cache|];
    [|now rewrite Hc].
  destruct (heap st !! cache) as [[c|props]|]; try now rewrite Hc.
  destruct (0 <? length (SimpleWordCache.get c [w]))%nat; [now rewrite Hc|].
  destruct (category_oracle api cat w (world st)) as [[r|] w']; now rewrite Hc.
Qed.

(** X22. Whenever a command of a cached category returns, it has shown
    exactly one thing, decided by the list that is now the entry for the
    target word in the map of the category's cache: the notice "No results
    found." if that list is empty, else the picker over the whole list, in
    order and without truncation; choosing a suggestion there replaces the
    range captured when the command started with the chosen word. *)
Theorem command_shows_what_is_cached (cat : Category) (editor : Editor)
    (st st2 : State World) (r : RootSelection) :
  getRootSelection editor = Some r ->
  createCommandModal editor (process api cat) st = (Some tt, st2) ->
  exists results cache c2,
    wordy_prop (heap st2) (caches st2) (category_key cat) = Some cache
    /\ heap st2 !! cache = Some (ObjSimpleWordCache c2)
    /\ SimpleWordCache.map c2 !! Some (word r) = Some results
    /\ ui st2
       = ui st
         ++ [if (length results =? 0)%nat
             then Notice "Oops — No results found."
             else ModalOpened results (ReplaceRangeAt (from r) (to r))]
    /\ SearchableWordsModal.getSuggestions
         {| SearchableWordsModal.words := results;
            SearchableWordsModal.replaceFn := ReplaceRangeAt (from r) (to r) |} ""
       = results
    /\ forall chosen,
         SearchableWordsModal.onChooseSuggestion
           {| SearchableWordsModal.words := results;
              SearchableWordsModal.replaceFn := ReplaceRangeAt (from r) (to r) |}
           chosen
         = EditReplaceRange chosen (from r) (to r).
Proof.
  intros Hr H.
  unfold createCommandModal, bind, lift_option, ret in H. rewrite Hr in H.
  destruct (process api cat (word r) st) as [[results|] st1] eqn:Hp;
    [|discriminate].
  destruct (process_returns_stored_entry api cat (word r) st st1 results Hp)
    as (cache & c2 & Hprop & Hl & Hget).
  pose proof (process_keeps_ui cat (word r) st) as Hui. rewrite Hp in Hui.
  exists results, cache, c2.
  assert (heap st2 = heap st1 /\ caches st2 = caches st1
          /\ ui st2
             = ui st1
               ++ [if (length results =? 0)%nat
                   then Notice "Oops — No results found."
                   else ModalOpened results (ReplaceRangeAt (from r) (to r))])
    as (Hh & Hc & Hu).
  { unfold emit in H. destruct (length results =? 0)%nat; inversion H; auto. }
  rewrite Hh, Hc, Hu. simpl in Hui. rewrite Hui.
  split; [exact Hprop|]. split; [exact Hl|]. split; [exact Hget|].
  split; [reflexivity|]. split; [|reflexivity].
  unfold SearchableWordsModal.getSuggestions. simpl.
  rewrite <- (filter_true results) at 2.
  apply List.filter_ext. intros w. apply includes_units_nil.
Qed.

End CommandClaims.

Lemma command_shows_what_is_cached_witness :
  let api :=
    {| wordsSimilarTo := fun _ (u : unit) => (Some ["glad"; "cheerful"], u);
       wordsOppositeTo := fun _ _ u => (Some [], u);
       wordsThatRhymeWith := fun _ u => (Some [], u);
       alliterativeSynonyms := fun _ _ u => (None, u) |} in
  let editor :=
    {| getSelection := "happy"; getCursor := {| line := 0; ch := 5 |};
       getCursor_from := {| line := 0; ch := 0 |};
       getCursor_to := {| line := 0; ch := 5 |};
       wordAt := fun _ => None; getLine := fun _ => "happy days";
       getRange := fun _ _ => "" |} in
  let r := {| word := "happy"; from := {| line := 0; ch := 0 |};
              to := {| line := 0; ch := 5 |}; sentence := "happy days" |} in
  let st2 := snd (createCommandModal editor (process api Syn) (new_plugin tt)) in
  exists results cache c2,
    wordy_prop (heap st2) (caches st2) (category_key Syn) = Some cache
    /\ heap st2 !! cache = Some (ObjSimpleWordCache c2)
    /\ SimpleWordCache.map c2 !! Some (word r) = Some results
    /\ ui st2
       = ui (new_plugin tt)
         ++ [if (length results =? 0)%nat
             then Notice "Oops — No results found."
             else ModalOpened results (ReplaceRangeAt (from r) (to r))]
    /\ SearchableWordsModal.getSuggestions
         {| SearchableWordsModal.words := results;
            SearchableWordsModal.replaceFn := ReplaceRangeAt (from r) (to r) |} ""
       = results
    /\ forall chosen,
         SearchableWordsModal.onChooseSuggestion
           {| SearchableWordsModal.words := results;
              SearchableWordsModal.replaceFn := ReplaceRangeAt (from r) (to r) |}
           chosen
         = EditReplaceRange chosen (from r) (to r).
Proof.
  intros api editor r st2.
  apply (command_shows_what_is_cached api Syn editor (new_plugin tt) st2 r).
  - vm_compute. reflexivity.
  - subst st2. unfold createCommandModal, bind, lift_option, ret.
    change (getRootSelection editor) with (Some r). cbn [word r].
    simpl process. rewrite processSynonyms_fresh. reflexivity.
Defined.

(** ** Idempotence of extraction: every span that meets the sentence *)

Lemma lookup_rev (l : list ascii) (i : nat) :
  i < length l -> rev l !! i = l !! (length l - S i).
Proof.
  induction l as [|x l IH] using rev_ind in i |- *; [simpl; lia|].
  rewrite rev_app_distr, length_app. simpl. intros Hi.
  destruct i as [|i]; simpl.
  - replace (length l + 1 - 1) with (length l + 0) by lia.
    now rewrite lookup_app_r, Nat.add_comm, Nat.add_sub by lia.
  - rewrite IH by lia. rewrite lookup_app_l by lia. f_equal. lia.
Qed.

Lemma drop_take_piece (l : list ascii) (k n : nat) :
  drop k (take n l) = take (n - k) (drop k l).
Proof.
  destruct (Nat.le_gt_cases k n) as [Hle|Hgt].
  - rewrite (take_drop_commute l (n - k) k).
    now replace (k + (n - k)) with n by lia.
  - replace (n - k) with 0 by lia. rewrite take_0.
    apply drop_ge. rewrite length_take. lia.
Qed.

(** What the backward scan returns: outside the text one more than where it
    started; inside it the index where [scan] left off, plus one unless it
    stands on a sentence ending. *)
Lemma backward_result (text : string) (from_ch : Z) :
  exists start reads,
    findWordBoundaries text from_ch (-1) = Some (start, reads)
    /\ (((from_ch < 0 \/ Z.of_nat (String.length text) <= from_ch)
         /\ start = from_ch + 1)%Z
        \/ ((0 <= from_ch < Z.of_nat (String.length text))%Z
            /\ let r := scan 0 (rev (take (S (Z.to_nat from_ch))
                                       (list_ascii_of_string text))) in
               fst r <= S (Z.to_nat from_ch)
               /\ (if snd r
                   then fst r <= Z.to_nat from_ch
                        /\ start = Z.of_nat (Z.to_nat from_ch - fst r)
                        /\ exists c,
                             list_ascii_of_string text !! (Z.to_nat from_ch - fst r)
                             = Some c
                             /\ isEnding c = true
                   else 1 <= fst r
                        /\ start = Z.of_nat (S (Z.to_nat from_ch) - fst r)))).
Proof.
  unfold findWordBoundaries.
  destruct (Z.lt_ge_cases from_ch 0) as [Hneg|Hpos].
  { rewrite loop_outside by lia. eexists _, _. split; [reflexivity|]. left. split; [lia|reflexivity]. }
  destruct (Z.lt_ge_cases from_ch (Z.of_nat (String.length text))) as [Hin|Hout].
  2:{ rewrite loop_outside by lia. eexists _, _. split; [reflexivity|]. left. split; [lia|reflexivity]. }
  destruct (loop_backward text (S (String.length text)) 0 from_ch) as [reads E];
    [lia|lia|].
  rewrite E. eexists _, reads. split; [reflexivity|]. right. split; [lia|].
  replace (Z.to_nat (from_ch + 1)) with (S (Z.to_nat from_ch)) by lia.
  set (A := rev (take (S (Z.to_nat from_ch)) (list_ascii_of_string text))).
  assert (length A = S (Z.to_nat from_ch)) as HA.
  { unfold A. rewrite length_rev, length_take, length_list_ascii. lia. }
  pose proof (scan_length A 0%Z) as Hlen. rewrite HA in Hlen.
  cbv zeta. split; [exact Hlen|].
  destruct (snd (scan 0 A)) eqn:Es.
  - destruct (scan_halt A 0%Z Es) as (c & Hc & He).
    pose proof (lookup_lt_Some _ _ _ Hc) as Hk. rewrite HA in Hk.
    split; [lia|]. split; [lia|]. exists c. split; [|exact He].
    set (k := fst (scan 0 A)) in *. clearbody k.
    unfold A in Hc. rewrite lookup_rev in Hc
      by (rewrite length_take, length_list_ascii; lia).
    rewrite length_take, length_list_ascii in Hc.
    rewrite lookup_take_lt in Hc by lia.
    rewrite <- Hc. f_equal. lia.
  - split; [|lia].
    destruct A as [|c A']; [discriminate|]. simpl in Es |- *.
    destruct (isEnding c); [discriminate|simpl; lia].
Qed.

Lemma forward_result (text : string) (to_ch : Z) :
  exists end_ reads,
    findWordBoundaries text to_ch 1 = Some (end_, reads)
    /\ (((to_ch < 0 \/ Z.of_nat (String.length text) <= to_ch) /\ end_ = to_ch)%Z
        \/ ((0 <= to_ch < Z.of_nat (String.length text))%Z
            /\ end_
               = Z.of_nat (Z.to_nat to_ch
                           + fst (scan 0 (drop (Z.to_nat to_ch)
                                            (list_ascii_of_string text))))
            /\ (end_ <= Z.of_nat (String.length text))%Z)).
Proof.
  unfold findWordBoundaries.
  destruct (Z.lt_ge_cases to_ch 0) as [Hneg|Hpos].
  { rewrite loop_outside by lia. eexists _, _. split; [reflexivity|]. left. split; [lia|reflexivity]. }
  destruct (Z.lt_ge_cases to_ch (Z.of_nat (String.length text))) as [Hin|Hout].
  2:{ rewrite loop_outside by lia. eexists _, _. split; [reflexivity|]. left. split; [lia|reflexivity]. }
  destruct (loop_forward text (S (String.length text)) 0 to_ch) as [reads E];
    [lia|lia|].
  rewrite E. eexists _, reads. split; [reflexivity|]. right.
  pose proof (scan_length (drop (Z.to_nat to_ch) (list_ascii_of_string text)) 0%Z)
    as Hlen.
  rewrite length_drop, length_list_ascii in Hlen. lia.
Qed.

Lemma substring_of_empty (a b : Z) : Js.substring "" a b = "".
Proof. unfold Js.substring. simpl. now rewrite drop_nil, take_nil. Qed.

Lemma sentenceOfLine_empty (a b : Z) : sentenceOfLine "" a b = Some "".
Proof.
  destruct (sentenceOfLine_returns "" a b) as (x & y & E).
  now rewrite E, substring_of_empty.
Qed.

Lemma trimEnds_length (l : list ascii) :
  length (trimEnds l) <= length (dropLeading l).
Proof.
  unfold trimEnds. rewrite length_rev.
  pose proof (dropLeading_length (rev (dropLeading l))) as H.
  now rewrite length_rev in H.
Qed.

(** Where the sentence sits in the line: it is the piece of [length] units
    that starts after the leading run of the substring. *)
Lemma sentence_position (L : list ascii) (a b : nat) :
  a <= b <= length L ->
  let sub := take (b - a) (drop a L) in
  let lead := length sub - length (dropLeading sub) in
  trimEnds sub = take (length (trimEnds sub)) (drop (a + lead) L)
  /\ a + lead + length (trimEnds sub) <= b.
Proof.
  intros Hab sub lead.
  pose proof (trimEnds_length sub) as H1.
  pose proof (dropLeading_length sub) as H2.
  assert (length sub = b - a) as H3
    by (unfold sub; rewrite length_take, length_drop; lia).
  split; [|lia].
  rewrite trimEnds_piece at 1. fold lead. unfold sub at 2.
  rewrite piece_of_piece. f_equal. lia.
Qed.

(** The scans on the sentence taken as a fresh line, from columns carried
    over from the line. *)
Lemma backward_on_piece (L K : list ascii) (off f' : nat) :
  K = take (length K) (drop off L) ->
  f' < length K ->
  S f' <= fst (scan 0 (rev (take (S (off + f')) L))) ->
  scan 0 (rev (take (S f') K)) = (S f', false).
Proof.
  intros HS Hf Hk.
  assert (off + length K <= length L) as Hlen.
  { apply (f_equal length) in HS. rewrite length_take, length_drop in HS. lia. }
  assert (rev (take (S f') K) = take (S f') (rev (take (S (off + f')) L))) as ->.
  { rewrite firstn_rev, length_take.
    replace (Nat.min (S (off + f')) (length L) - S f') with off by lia.
    f_equal. rewrite HS, take_take.
    replace (Nat.min (S f') (length K)) with (S f') by lia.
    rewrite (take_drop_commute L (S f') off). f_equal. f_equal. lia. }
  now apply scan_take.
Qed.

Lemma forward_on_piece (L K : list ascii) (off t' : nat) :
  K = take (length K) (drop off L) ->
  t' < length K ->
  length K - t' <= fst (scan 0 (drop (off + t') L)) ->
  fst (scan 0 (drop t' K)) = length K - t'.
Proof.
  intros HS Ht Hk.
  assert (drop t' K = take (length K - t') (drop (off + t') L)) as ->.
  { rewrite HS at 1. now rewrite drop_take_piece, drop_drop. }
  now rewrite scan_take.
Qed.

(** C8. Sentence extraction is idempotent on its output.  For every line
    and every span with from <= to that has a position in the extracted
    sentence (it reaches the column where the sentence starts and starts
    before the column where the sentence ends; or the sentence is empty):
    the sentence is the piece of the line at the column [sentenceStart]
    gives, and extraction on the sentence as a fresh line, with the span
    moved to its position there, returns the same sentence.  Every span
    that starts and ends on a character that is neither white space nor one
    of . ! ? has such a position, and so has every span that overlaps or
    touches the sentence. *)
Theorem sentence_extraction_idempotent (text : string) (from_ch to_ch : Z)
    (sentence : string) (off : Z) :
  (from_ch <= to_ch)%Z ->
  sentenceOfLine text from_ch to_ch = Some sentence ->
  sentenceStart text from_ch to_ch = Some off ->
  sentence = ""
  \/ (off <= to_ch /\ from_ch < off + Z.of_nat (String.length sentence))%Z ->
  Js.substring text off (off + Z.of_nat (String.length sentence)) = sentence
  /\ sentenceOfLine sentence (from_ch - off) (to_ch - off) = Some sentence.
Proof.
  intros Hle Hs Ho Hov.
  destruct (backward_result text from_ch) as (start & r1 & E1 & Hb).
  destruct (forward_result text to_ch) as (end_ & r2 & E2 & Hf).
  unfold sentenceOfLine, sentenceOfLine_traced in Hs. rewrite E1, E2 in Hs.
  simpl in Hs. injection Hs as Hs.
  unfold sentenceStart in Ho. rewrite E1, E2 in Ho. injection Ho as Ho.
  set (L := list_ascii_of_string text) in *.
  assert (String.length text = length L) as Hn
    by (unfold L; now rewrite length_list_ascii).
  rewrite Hn in *.
  set (a := Js.clamp (length L) start) in *.
  set (b := Js.clamp (length L) end_) in *.
  assert (Z.of_nat a = Z.min (Z.max start 0) (Z.of_nat (length L))) as Hadef
    by (unfold a, Js.clamp; lia).
  assert (Z.of_nat b = Z.min (Z.max end_ 0) (Z.of_nat (length L))) as Hbdef
    by (unfold b, Js.clamp; lia).
  assert (a <= length L /\ b <= length L) as [Han Hbn] by lia.
  (* the scans do not cross *)
  assert (a <= b) as Hab.
  { destruct Hb as [[Hout Hst0]|[Hin Hb]].
    - destruct Hf as [[Hout' Hen]|(Hin' & Hen & Hn')]; lia.
    - cbv zeta in Hb. destruct Hb as [Hk Hb].
      assert (start <= from_ch)%Z as Hst.
      { destruct (snd (scan 0 _)); [destruct Hb as (? & ? & _)|destruct Hb as [? ?]]; lia. }
      destruct Hf as [[Hout' Hen]|(Hin' & Hen & Hn')]; lia. }
  unfold Js.substring in Hs, Ho. rewrite Hn in Hs, Ho. fold a b in Hs, Ho.
  rewrite Nat.min_l, Nat.max_r in Hs, Ho by lia.
  rewrite list_ascii_of_string_of_list_ascii in Ho.
  unfold replace_trim in Hs. rewrite list_ascii_of_string_of_list_ascii in Hs.
  fold L in Hs, Ho.
  destruct (sentence_position L a b) as [Hpos Hposb]; [lia|].
  set (sub := take (b - a) (drop a L)) in *.
  set (lead := length sub - length (dropLeading sub)) in *.
  set (K := trimEnds sub) in *.
  assert (list_ascii_of_string sentence = K) as HK
    by (rewrite <- Hs; apply list_ascii_of_string_of_list_ascii).
  assert (String.length sentence = length K) as Hm
    by (rewrite <- HK; now rewrite length_list_ascii).
  assert (trimEnds K = K) as Hfix
    by (apply trimEnds_fixed; [apply trimEnds_head|apply trimEnds_last]).
  assert (forall c, L !! a = Some c -> isEnding c = true -> 1 <= length K ->
                    1 <= lead) as Hlead.
  { intros c Hc He HK1.
    assert (sub = c :: take (b - a - 1) (drop (S a) L)) as Hsub.
    { unfold sub. rewrite (drop_S _ _ _ Hc).
      replace (b - a) with (S (b - a - 1)) at 1 by lia. reflexivity. }
    unfold lead. rewrite Hsub. simpl.
    unfold isTrimChar. rewrite He. simpl.
    pose proof (dropLeading_length (take (b - a - 1) (drop (S a) L))). lia. }
  rewrite Hm in *. subst off.
  clearbody K lead. clear sub. clearbody a b.
  split.
  { rewrite (substring_between text _ _ (a + lead) (a + lead + length K));
      [|unfold Js.clamp; lia|unfold Js.clamp; lia|lia].
    fold L. replace (a + lead + length K - (a + lead)) with (length K) by lia.
    now rewrite <- Hpos. }
  destruct (Nat.eq_dec (length K) 0) as [Hz|Hnz].
  { assert (sentence = "") as ->.
    { rewrite <- Hs. destruct K; [reflexivity|discriminate]. }
    apply sentenceOfLine_empty. }
  destruct Hov as [->|[Hto Hfrom]]; [simpl in Hm; lia|].
  (* the scans on the sentence *)
  destruct (backward_result sentence (from_ch - Z.of_nat (a + lead)))
    as (start' & r1' & E1' & Hb').
  destruct (forward_result sentence (to_ch - Z.of_nat (a + lead)))
    as (end' & r2' & E2' & Hf').
  rewrite Hm, HK in Hb', Hf'.
  assert (Js.clamp (length K) start' = 0) as HA.
  { destruct Hb' as [[Hout ->]|[Hin Hb']]; [unfold Js.clamp; clear - Hout Hfrom; lia|].
    cbv zeta in Hb'. destruct Hb' as [_ Hb'].
    remember (Z.to_nat (from_ch - Z.of_nat (a + lead))) as f' eqn:Hf'def in Hb' |- *.
    assert (Z.to_nat from_ch = a + lead + f') as Hfr by lia.
    assert (S f' <= fst (scan 0 (rev (take (S (a + lead + f')) L)))) as Hk.
    { destruct Hb as [[Hout _]|[Hin0 Hb]]; [lia|].
      cbv zeta in Hb. rewrite Hfr in Hb. destruct Hb as [Hk Hb].
      destruct (snd (scan 0 (rev (take (S (a + lead + f')) L)))).
      - destruct Hb as (Hk' & Hst & c & Hc & He).
        assert (a = a + lead + f' - fst (scan 0 (rev (take (S (a + lead + f')) L))))
          as Ha by lia.
        rewrite <- Ha in Hc.
        pose proof (Hlead c Hc He ltac:(lia)). lia.
      - destruct Hb as [Hk1 Hst].
        assert (a = S (a + lead + f')
                    - fst (scan 0 (rev (take (S (a + lead + f')) L))))
          as Ha by lia.
        lia. }
    pose proof (backward_on_piece L K (a + lead) f' Hpos ltac:(lia) Hk) as Hscan.
    rewrite Hscan in Hb'. cbn [fst snd] in Hb'. destruct Hb' as [_ ->].
    unfold Js.clamp. clear. lia. }
  assert (Js.clamp (length K) end' = length K) as HB.
  { destruct Hf' as [[Hout ->]|(Hin & -> & _)]; [unfold Js.clamp; clear - Hout Hto; lia|].
    remember (Z.to_nat (to_ch - Z.of_nat (a + lead))) as t' eqn:Ht'def.
    assert (Z.to_nat to_ch = a + lead + t') as Htn by lia.
    assert (length K - t' <= fst (scan 0 (drop (a + lead + t') L))) as Hk.
    { destruct Hf as [[Hout _]|(Hin0 & He & _)]; [lia|].
      rewrite Htn in He. lia. }
    rewrite (forward_on_piece L K (a + lead) t' Hpos ltac:(lia) Hk).
    unfold Js.clamp. clear - Hin Ht'def. lia. }
  unfold sentenceOfLine, sentenceOfLine_traced. rewrite E1', E2'. simpl.
  f_equal.
  rewrite (substring_between sentence start' end' 0 (length K));
    [|now rewrite Hm|now rewrite Hm|lia].
  rewrite HK, drop_0, Nat.sub_0_r, take_ge by lia.
  unfold replace_trim. rewrite list_ascii_of_string_of_list_ascii, Hfix. exact Hs.
Qed.

Lemma sentence_extraction_idempotent_witness :
  Js.substring ".Net is fine" 1 (1 + Z.of_nat (String.length "Net is fine"))
  = "Net is fine"
  /\ sentenceOfLine "Net is fine" (0 - 1) (4 - 1) = Some "Net is fine".
Proof.
  apply (sentence_extraction_idempotent ".Net is fine" 0 4 "Net is fine" 1);
    [lia | reflexivity | reflexivity | right; simpl; lia].
Defined.

(** ** Lookups in flight: what overlapping calls do to a cached list *)

Section InFlightFacts.

Context {World : Type} (api : DatamuseApi World).

Lemma module_shape_ext (st st' : State World) :
  heap st' = heap st -> caches st' = caches st ->
  module_shape st -> module_shape st'.
Proof. unfold module_shape. intros -> ->. auto. Qed.

Lemma module_shape_store (st st' : State World) (c : Category)
    (c1 : SimpleWordCache.t) :
  heap st' = <[category_loc c := ObjSimpleWordCache c1]> (heap st) ->
  caches st' = caches st ->
  module_shape st -> module_shape st'.
Proof.
  unfold module_shape. intros -> -> (Hc & Hobj & Hcat).
  split; [exact Hc|]. split.
  - rewrite lookup_insert_ne; [exact Hobj|]. destruct c; discriminate.
  - intros c'. destruct (decide (category_loc c = category_loc c')) as [->|Hne].
    + rewrite lookup_insert_eq. eauto.
    + rewrite lookup_insert_ne by assumption. apply Hcat.
Qed.

Lemma continue_with_keeps (k : Continuation) (results : list string)
    (st : State World) :
  heap (continue_with k results st) = heap st
  /\ caches (continue_with k results st) = caches st
  /\ world (continue_with k results st) = world st
  /\ calls (continue_with k results st) = calls st.
Proof.
  destruct k as [|f t]; simpl; [auto|].
  destruct (length results =? 0)%nat; simpl; auto.
Qed.

(** The start of a lookup leaves the heap and the field [caches] alone; it
    returns at once, or it waits, and then it found no list, or an empty
    one, for its word in the cache instance of its category. *)
Lemma lookup_start_cases (c : Category) (w : string) (k : Continuation)
    (a : Async World) :
  module_shape (now a) ->
  heap (now (lookup_start c w k a)) = heap (now a)
  /\ caches (now (lookup_start c w k a)) = caches (now a)
  /\ (waiting (lookup_start c w k a) = waiting a
      \/ waiting (lookup_start c w k a)
         = waiting a ++ [PendingLookup c (category_loc c) w k]
         /\ cache_get (heap (now a)) (category_loc c) [w] = Some []).
Proof.
  intros Hs. unfold lookup_start.
  rewrite (category_loc_of_key (now a) c Hs).
  destruct (cache_get (heap (now a)) (category_loc c) [w]) as [cached|] eqn:Hg;
    [|auto].
  destruct cached as [|x cached]; simpl.
  - split; [reflexivity|]. split; [reflexivity|]. right. auto.
  - destruct (continue_with_keeps k (x :: cached) (now a)) as (Hh & Hc & _).
    auto.
Qed.

Lemma alliterative_start_cases (editor : Editor) (a : Async World) :
  heap (now (alliterative_start editor a)) = heap (now a)
  /\ caches (now (alliterative_start editor a)) = caches (now a)
  /\ (waiting (alliterative_start editor a) = waiting a
      \/ exists p r, waiting (alliterative_start editor a)
                     = waiting a ++ [PendingAlliterative p r]).
Proof.
  unfold alliterative_start. destruct (loose_neq_empty _); simpl; eauto 6.
Qed.

(** An answer leaves the field [caches] alone, takes the answered call out
    of the waiting ones, and changes the heap in at most one place: the
    entry of the word of an answered lookup, in the cache instance the
    lookup was called with. *)
Lemma answer_cases (i : nat) (a : Async World) :
  caches (now (answer api i a)) = caches (now a)
  /\ (waiting (answer api i a) = waiting a
      \/ waiting (answer api i a) = delete i (waiting a))
  /\ (heap (now (answer api i a)) = heap (now a)
      \/ exists c cache w k c0 r,
           waiting a !! i = Some (PendingLookup c cache w k)
           /\ heap (now a) !! cache = Some (ObjSimpleWordCache c0)
           /\ heap (now (answer api i a))
              = <[cache := ObjSimpleWordCache (SimpleWordCache.set c0 [w] r)]>
                  (heap (now a))).
Proof.
  unfold answer.
  destruct (waiting a !! i) as [[c cache w k|p r]|] eqn:Hi; [| |auto].
  - destruct (category_oracle api c w (world (now a))) as [[results|] w'];
      [|simpl; auto].
    unfold cache_set. simpl.
    destruct (heap (now a) !! cache) as [[c0|props]|] eqn:Hl; simpl; auto.
    destruct (continue_with_keeps k results
                (with_heap (<[cache := ObjSimpleWordCache
                                         (SimpleWordCache.set c0 [w] results)]>
                              (heap (now a)))
                   (with_world w' (now a)))) as (Hh & Hc & _).
    rewrite Hh, Hc. simpl. split; [reflexivity|]. split; [auto|].
    right. exists c, cache, w, k, c0, results. auto.
  - destruct (alliterativeSynonyms api p r (world (now a))) as [[results|] w'];
      simpl; [|auto].
    destruct (length results =? 0)%nat; simpl; auto.
Qed.

Lemma waiting_shape_delete (i : nat) (ps : list Pending) :
  waiting_shape ps -> waiting_shape (delete i ps).
Proof.
  unfold waiting_shape. revert i. induction ps as [|p ps IH]; intros i H.
  - destruct i; exact H.
  - inversion H; subst. destruct i; simpl; [assumption|].
    constructor; [assumption|]. apply IH. assumption.
Qed.

Lemma no_waits_delete (cache : loc) (w : string) (i : nat) (ps : list Pending) :
  forallb (fun p => negb (waits_for cache w p)) ps = true ->
  forallb (fun p => negb (waits_for cache w p)) (delete i ps) = true.
Proof.
  revert i. induction ps as [|p ps IH]; intros i H.
  - destruct i; exact H.
  - simpl in H. apply andb_prop in H as [H1 H2].
    destruct i; simpl; [exact H2|]. rewrite H1. simpl. apply IH, H2.
Qed.

Lemma no_waits_lookup (cache : loc) (w : string) (i : nat) (ps : list Pending)
    (p : Pending) :
  forallb (fun p => negb (waits_for cache w p)) ps = true ->
  ps !! i = Some p ->
  waits_for cache w p = false.
Proof.
  revert i. induction ps as [|q ps IH]; intros i H Hi; [destruct i; discriminate|].
  simpl in H. apply andb_prop in H as [H1 H2].
  destruct i; simpl in Hi.
  - injection Hi as <-. now apply negb_true_iff in H1.
  - eapply IH; eassumption.
Qed.

Lemma async_shape_event (e : AsyncEvent) (a : Async World) :
  async_shape a -> async_shape (run_async_event api e a).
Proof.
  intros [Hs Hw].
  assert (forall c w k, async_shape (lookup_start c w k a)) as Hstart.
  { intros c w k.
    destruct (lookup_start_cases c w k a Hs) as (Hh & Hc & [Hq|[Hq _]]).
    - split; [eapply module_shape_ext; eassumption|]. rewrite Hq. exact Hw.
    - split; [eapply module_shape_ext; eassumption|]. rewrite Hq.
      apply Forall_app. split; [exact Hw|]. repeat constructor. }
  destruct e as [c w|c editor|c editor|editor|i| |s]; simpl.
  - apply Hstart.
  - unfold command_start. destruct (getRootSelection editor); [apply Hstart|].
    split; assumption.
  - unfold menu_start. destruct (getRootSelection editor); [apply Hstart|].
    split; assumption.
  - destruct (alliterative_start_cases editor a) as (Hh & Hc & [Hq|(p & r & Hq)]).
    + split; [eapply module_shape_ext; eassumption|]. rewrite Hq. exact Hw.
    + split; [eapply module_shape_ext; eassumption|]. rewrite Hq.
      apply Forall_app. split; [exact Hw|]. repeat constructor.
  - destruct (answer_cases i a) as (Hc & Hq & Hh). split.
    + destruct Hh as [Hh|(c & cache & w & k & c0 & r & Hi & Hl & Hh)].
      * eapply module_shape_ext; eassumption.
      * assert (cache = category_loc c) as ->.
        { exact (Forall_lookup_1 _ _ _ _ Hw Hi). }
        eapply module_shape_store; eassumption.
    + destruct Hq as [->| ->]; [exact Hw|]. apply waiting_shape_delete, Hw.
  - split; [|exact Hw]. apply (module_shape_event api EvClearCache (now a) Hs).
  - split; [|exact Hw]. destruct Hs as (H1 & H2 & H3). split; [exact H1|].
    split; [exact H2|exact H3].
Qed.

Lemma async_shape_new (w0 : World) : async_shape (async_new w0).
Proof. split; [apply module_shape_new|constructor]. Qed.

Lemma async_shape_run (es : list AsyncEvent) (a : Async World) :
  async_shape a -> async_shape (run_async api es a).
Proof.
  revert a. induction es as [|e es IH]; intros a Ha; [exact Ha|].
  simpl. apply IH, async_shape_event, Ha.
Qed.

Lemma entry_is_ext (a a' : Async World) cat w r :
  heap (now a') = heap (now a) -> entry_is a cat w r -> entry_is a' cat w r.
Proof. unfold entry_is. intros ->. auto. Qed.

Lemma entry_get (a : Async World) cat w r :
  entry_is a cat w r -> cache_get (heap (now a)) (category_loc cat) [w] = Some r.
Proof.
  intros (c & Hl & Hm). unfold cache_get, SimpleWordCache.get.
  rewrite Hl. simpl. now rewrite Hm.
Qed.

Lemma no_waits_app (cache : loc) (w : string) (ps : list Pending) (p : Pending) :
  forallb (fun p => negb (waits_for cache w p)) ps = true ->
  waits_for cache w p = false ->
  forallb (fun p => negb (waits_for cache w p)) (ps ++ [p]) = true.
Proof.
  intros H Hp. rewrite forallb_app, H. simpl. now rewrite Hp.
Qed.

Lemma category_loc_inj (c c' : Category) :
  category_loc c = category_loc c' -> c = c'.
Proof. destruct c, c'; (reflexivity || discriminate). Qed.

(** One event keeps a non-empty entry for which no lookup waits, and starts
    no lookup that waits for it. *)
Lemma event_keeps_entry (e : AsyncEvent) (a : Async World)
    (cat : Category) (w : string) (r : list string) :
  r <> [] ->
  async_shape a ->
  entry_is a cat w r ->
  no_lookup_waits (category_loc cat) w a = true ->
  entry_is (run_async_event api e a) cat w r
  /\ no_lookup_waits (category_loc cat) w (run_async_event api e a) = true.
Proof.
  intros Hr [Hs Hw] He Hn.
  assert (forall c w' k,
             entry_is (lookup_start c w' k a) cat w r
             /\ no_lookup_waits (category_loc cat) w (lookup_start c w' k a) = true)
    as Hstart.
  { intros c w' k.
    destruct (lookup_start_cases c w' k a Hs) as (Hh & Hc & [Hq|[Hq Hg]]).
    - split; [eapply entry_is_ext; eassumption|].
      unfold no_lookup_waits. rewrite Hq. exact Hn.
    - split; [eapply entry_is_ext; eassumption|].
      unfold no_lookup_waits. rewrite Hq. apply no_waits_app; [exact Hn|].
      simpl. apply andb_false_iff.
      destruct (Pos.eqb_spec (category_loc c) (category_loc cat)) as [Hl|Hl];
        [right|now left].
      apply category_loc_inj in Hl. subst c.
      apply String.eqb_neq. intros ->.
      rewrite (entry_get a cat w r He) in Hg. congruence. }
  destruct e as [c w'|c editor|c editor|editor|i| |s]; simpl.
  - apply Hstart.
  - unfold command_start. destruct (getRootSelection editor); [apply Hstart|auto].
  - unfold menu_start. destruct (getRootSelection editor); [apply Hstart|auto].
  - destruct (alliterative_start_cases editor a) as (Hh & Hc & [Hq|(p & q & Hq)]).
    + split; [eapply entry_is_ext; eassumption|].
      unfold no_lookup_waits. rewrite Hq. exact Hn.
    + split; [eapply entry_is_ext; eassumption|].
      unfold no_lookup_waits. rewrite Hq. apply no_waits_app; [exact Hn|reflexivity].
  - destruct (answer_cases i a) as (Hc & Hq & Hh). split.
    + destruct Hh as [Hh|(c & cache & w' & k & c0 & r' & Hi & Hl & Hh)].
      * eapply entry_is_ext; eassumption.
      * pose proof (no_waits_lookup _ _ _ _ _ Hn Hi) as Hp. simpl in Hp.
        destruct He as (c1 & Hl1 & Hm1). unfold entry_is. rewrite Hh.
        destruct (Pos.eqb_spec cache (category_loc cat)) as [->|Hne].
        -- rewrite lookup_insert_eq. eexists. split; [reflexivity|].
           rewrite Hl1 in Hl. injection Hl as <-.
           simpl in Hp. apply String.eqb_neq in Hp.
           unfold SimpleWordCache.set. simpl.
           rewrite lookup_insert_ne by congruence. exact Hm1.
        -- rewrite lookup_insert_ne by assumption. eauto.
    + unfold no_lookup_waits. destruct Hq as [->| ->]; [exact Hn|].
      apply no_waits_delete, Hn.
  - auto.
  - auto.
Qed.

(** A lookup that is answered before anything else happens is the process
    call of the sequential reading, followed by the rest of its caller. *)
Lemma answered_at_once (c : Category) (w : string) (k : Continuation)
    (a : Async World) :
  answer api (length (waiting a)) (lookup_start c w k a)
  = {| now :=
         match process api c w (now a) with
         | (Some results, st1) => continue_with k results st1
         | (None, st1) => st1
         end;
       waiting := waiting a |}.
Proof.
  destruct a as [st ps]. unfold lookup_start. cbn [now waiting].
  pose proof (process_cases api c w st) as Hc. unfold cache_get.
  assert (forall st', answer api (length ps) {| now := st'; waiting := ps |}
                      = {| now := st'; waiting := ps |}) as Hout.
  { intros st'. unfold answer. cbn [waiting].
    now rewrite (proj2 (lookup_ge_None ps (length ps)) (le_n _)). }
  destruct (wordy_prop (heap st) (caches st) (category_key c)) as [cache|];
    [|rewrite Hc; apply Hout].
  destruct (heap st !! cache) as [[c0|props]|] eqn:E;
    try (rewrite Hc; apply Hout).
  destruct (0 <? length (SimpleWordCache.get c0 [w]))%nat;
    [rewrite Hc; apply Hout|].
  unfold answer. cbn [waiting now].
  rewrite lookup_app_r by reflexivity. rewrite Nat.sub_diag. cbn [lookup list_lookup].
  cbn [with_call world].
  assert (delete (length ps) (ps ++ [PendingLookup c cache w k]) = ps) as Hdel.
  { clear. induction ps as [|p ps IH]; simpl; [reflexivity|]. now rewrite IH. }
  rewrite Hdel.
  destruct (category_oracle api c w (world st)) as [[r|] w']; rewrite Hc.
  - unfold cache_set. cbn [with_call heap]. rewrite E. reflexivity.
  - reflexivity.
Qed.

Lemma process_answered_at_once (c : Category) (w : string) (a : Async World) :
  run_async api [AsProcess c w; AsAnswer (length (waiting a))] a
  = {| now := snd (process api c w (now a)); waiting := waiting a |}.
Proof.
  simpl. rewrite answered_at_once.
  destruct (process api c w (now a)) as [[results|] st1]; reflexivity.
Qed.

Lemma command_answered_at_once (c : Category) (editor : Editor) (a : Async World) :
  run_async api [AsCommand c editor; AsAnswer (length (waiting a))] a
  = {| now := snd (createCommandModal editor (process api c) (now a));
       waiting := waiting a |}.
Proof.
  simpl. unfold command_start, createCommandModal, bind, lift_option, ret.
  destruct (getRootSelection editor) as [r|].
  - rewrite answered_at_once.
    destruct (process api c (word r) (now a)) as [[results|] st1]; [|reflexivity].
    simpl. destruct (length results =? 0)%nat; reflexivity.
  - unfold answer. rewrite (proj2 (lookup_ge_None _ _) (le_n _)).
    destruct a; reflexivity.
Qed.

End InFlightFacts.

Section InFlightClaims.

Context {World : Type} (api : DatamuseApi World).

(** X10. A non-empty cached list stays unless a lookup for it is in flight.
    Calls may overlap: a lookup waits at [await fetchFn(word)] while other
    flows start and other answers arrive in any order.  In every state that
    a fresh plugin reaches that way: once the map of a category's cache
    holds a non-empty list for a word and no waiting lookup was started for
    that word in that cache, no further sequence of events (starts, answers,
    clearing the cache, settings changes) changes that entry or brings
    such a lookup about, and a process call for the word returns the list
    without asking the client and without waiting. *)
Theorem cached_list_stays_unless_in_flight (es es' : list AsyncEvent)
    (w0 : World) (cat : Category) (w : string) (r : list string)
    (c : SimpleWordCache.t) :
  let a := run_async api es (async_new w0) in
  r <> [] ->
  heap (now a) !! category_loc cat = Some (ObjSimpleWordCache c) ->
  SimpleWordCache.map c !! Some w = Some r ->
  no_lookup_waits (category_loc cat) w a = true ->
  let a' := run_async api es' a in
  (exists c',
      heap (now a') !! category_loc cat = Some (ObjSimpleWordCache c')
      /\ SimpleWordCache.map c' !! Some w = Some r)
  /\ no_lookup_waits (category_loc cat) w a' = true
  /\ wordy_prop (heap (now a')) (caches (now a')) (category_key cat)
     = Some (category_loc cat)
  /\ process api cat w (now a') = (Some r, now a')
  /\ run_async_event api (AsProcess cat w) a' = a'.
Proof.
  intros a Hr Hl Hm Hn a'.
  assert (async_shape a) as Ha by apply async_shape_run, async_shape_new.
  assert (entry_is a cat w r) as He by (exists c; auto).
  assert (async_shape a' /\ entry_is a' cat w r
          /\ no_lookup_waits (category_loc cat) w a' = true) as (Ha' & He' & Hn').
  { subst a'. clear Hl Hm. revert Ha He Hn. generalize a. clear a.
    induction es' as [|e es' IH]; intros a Ha He Hn; [auto|].
    simpl. destruct (event_keeps_entry api e a cat w r Hr Ha He Hn) as [He1 Hn1].
    apply IH; [apply async_shape_event, Ha|exact He1|exact Hn1]. }
  split; [exact He'|]. split; [exact Hn'|].
  destruct Ha' as [Hs' _].
  pose proof (category_loc_of_key (now a') cat Hs') as Hk.
  pose proof (entry_get a' cat w r He') as Hg.
  assert ((0 <? length r)%nat = true) as Hpos
    by (destruct r; [congruence|reflexivity]).
  split; [exact Hk|]. split.
  - apply (process_hit api cat w (now a') (category_loc cat) r); auto.
  - simpl. unfold lookup_start. rewrite Hk, Hg, Hpos. simpl.
    destruct a'; reflexivity.
Qed.

(** X23. Lookups that overlap both ask the client, and the answer that
    arrives last is the one the cache keeps.  In every state that a fresh
    plugin reaches, for a word whose entry is missing or empty: two process
    calls for the word that start before either is answered each send a
    request; when the two answers arrive, in either order, the first list is
    stored and then replaced by the second, also when the first list is not
    empty and the second one is. *)
Theorem overlapping_lookups_last_answer_wins (es : list AsyncEvent) (w0 : World)
    (cat : Category) (w : string) (i : nat) (r1 r2 : list string)
    (w1 w2 : World) :
  let a := run_async api es (async_new w0) in
  let n := length (waiting a) in
  let a0 := run_async api [AsProcess cat w; AsProcess cat w] a in
  let a1 := run_async_event api (AsAnswer (n + i)) a0 in
  let a2 := run_async_event api (AsAnswer n) a1 in
  cache_get (heap (now a)) (category_loc cat) [w] = Some [] ->
  (i < 2)%nat ->
  category_oracle api cat w (world (now a)) = (Some r1, w1) ->
  category_oracle api cat w w1 = (Some r2, w2) ->
  calls (now a0) = calls (now a) ++ [category_call cat w; category_call cat w]
  /\ (exists c1,
        heap (now a1) !! category_loc cat = Some (ObjSimpleWordCache c1)
        /\ SimpleWordCache.map c1 !! Some w = Some r1)
  /\ (exists c2,
        heap (now a2) !! category_loc cat = Some (ObjSimpleWordCache c2)
        /\ SimpleWordCache.map c2 !! Some w = Some r2)
  /\ waiting a2 = waiting a.
Proof.
  intros a n a0 a1 a2 Hg Hi Ho1 Ho2.
  assert (async_shape a) as [Hs _] by apply async_shape_run, async_shape_new.
  pose proof (category_loc_of_key (now a) cat Hs) as Hk.
  set (p := PendingLookup cat (category_loc cat) w ThenNothing).
  assert (a0 = {| now := with_call (category_call cat w)
                           (with_call (category_call cat w) (now a));
                  waiting := (waiting a ++ [p]) ++ [p] |}) as Ha0.
  { subst a0. simpl. unfold lookup_start at 2. rewrite Hk, Hg. simpl.
    unfold lookup_start. cbn [now waiting with_call heap caches].
    rewrite Hk, Hg. reflexivity. }
  unfold cache_get in Hg.
  destruct (heap (now a) !! category_loc cat) as [[c0|props]|] eqn:Hl;
    try discriminate.
  assert (forall j : nat, (j < 2)%nat ->
            ((waiting a ++ [p]) ++ [p]) !! (n + j)%nat = Some p
            /\ delete (n + j)%nat ((waiting a ++ [p]) ++ [p]) = waiting a ++ [p])
    as Hidx.
  { intros j Hj. subst n. generalize (waiting a). clear - Hj.
    intros ps. induction ps as [|q ps IH]; simpl.
    - destruct j as [|[|j]]; simpl; [auto|auto|lia].
    - destruct IH as [IH1 IH2]. split; [exact IH1|]. now rewrite IH2. }
  assert ((waiting a ++ [p]) !! n = Some p
          /\ delete n (waiting a ++ [p]) = waiting a) as [Hi2 Hd2].
  { subst n. generalize (waiting a). clear.
    intros ps. induction ps as [|q ps IH]; simpl; [auto|].
    destruct IH as [IH1 IH2]. split; [exact IH1|]. now rewrite IH2. }
  destruct (Hidx i Hi) as [Hi1 Hd1].
  assert (a1 = {| now := with_heap
                           (<[category_loc cat :=
                                ObjSimpleWordCache (SimpleWordCache.set c0 [w] r1)]>
                              (heap (now a)))
                           (with_world w1
                              (with_call (category_call cat w)
                                 (with_call (category_call cat w) (now a))));
                  waiting := waiting a ++ [p] |}) as Ha1.
  { subst a1. rewrite Ha0. simpl. unfold answer. cbn [waiting now].
    rewrite Hi1, Hd1. subst p. cbn [with_call world heap].
    rewrite Ho1. unfold cache_set. rewrite Hl. reflexivity. }
  assert (a2 = {| now := with_heap
                           (<[category_loc cat :=
                                ObjSimpleWordCache
                                  (SimpleWordCache.set
                                     (SimpleWordCache.set c0 [w] r1) [w] r2)]>
                              (<[category_loc cat :=
                                   ObjSimpleWordCache (SimpleWordCache.set c0 [w] r1)]>
                                 (heap (now a))))
                           (with_world w2
                              (with_call (category_call cat w)
                                 (with_call (category_call cat w) (now a))));
                  waiting := waiting a |}) as Ha2.
  { subst a2. rewrite Ha1. simpl. unfold answer. cbn [waiting now].
    rewrite Hi2, Hd2. subst p. cbn [with_call with_world with_heap world heap].
    rewrite Ho2. unfold cache_set. rewrite lookup_insert_eq. reflexivity. }
  split; [rewrite Ha0; simpl; now rewrite <- app_assoc|].
  split; [|split].
  - rewrite Ha1. simpl. rewrite lookup_insert_eq. eexists. split; [reflexivity|].
    unfold SimpleWordCache.set. simpl. apply lookup_insert_eq.
  - rewrite Ha2. simpl. rewrite lookup_insert_eq. eexists. split; [reflexivity|].
    unfold SimpleWordCache.set. simpl. apply lookup_insert_eq.
  - rewrite Ha2. reflexivity.
Qed.

End InFlightClaims.

Lemma cached_list_stays_unless_in_flight_witness :
  let api :=
    {| wordsSimilarTo := fun _ (u : unit) => (Some ["glad"], u);
       wordsOppositeTo := fun _ _ u => (Some [], u);
       wordsThatRhymeWith := fun _ u => (Some [], u);
       alliterativeSynonyms := fun _ _ u => (None, u) |} in
  let es := [AsProcess Syn "happy"; AsAnswer 0] in
  let es' := [AsProcess Syn "happy"; AsClearCache; AsProcess Syn "sad";
              AsProcess Ant "happy"; AsAnswer 1; AsAnswer 0] in
  let a' := run_async api es' (run_async api es (async_new tt)) in
  (exists c',
      heap (now a') !! category_loc Syn = Some (ObjSimpleWordCache c')
      /\ SimpleWordCache.map c' !! Some "happy" = Some ["glad"])
  /\ no_lookup_waits (category_loc Syn) "happy" a' = true
  /\ wordy_prop (heap (now a')) (caches (now a')) (category_key Syn)
     = Some (category_loc Syn)
  /\ process api Syn "happy" (now a') = (Some ["glad"], now a')
  /\ run_async_event api (AsProcess Syn "happy") a' = a'.
Proof.
  intros api es es' a'.
  apply (cached_list_stays_unless_in_flight api es es' tt Syn "happy" ["glad"]
           (SimpleWordCache.set SimpleWordCache.new ["happy"] ["glad"]));
    [discriminate|vm_compute; reflexivity|vm_compute; reflexivity|reflexivity].
Defined.

Lemma overlapping_lookups_last_answer_wins_witness :
  let api :=
    {| wordsSimilarTo :=
         fun _ (k : nat) => (Some (if (k =? 0)%nat then ["glad"] else []), S k);
       wordsOppositeTo := fun _ _ k => (Some [], k);
       wordsThatRhymeWith := fun _ k => (Some [], k);
       alliterativeSynonyms := fun _ _ k => (None, k) |} in
  let a := run_async api [] (async_new 0%nat) in
  let a0 := run_async api [AsProcess Syn "happy"; AsProcess Syn "happy"] a in
  let a1 := run_async_event api (AsAnswer (0 + 1)) a0 in
  let a2 := run_async_event api (AsAnswer 0) a1 in
  calls (now a0)
  = calls (now a) ++ [category_call Syn "happy"; category_call Syn "happy"]
  /\ (exists c1,
        heap (now a1) !! category_loc Syn = Some (ObjSimpleWordCache c1)
        /\ SimpleWordCache.map c1 !! Some "happy" = Some ["glad"])
  /\ (exists c2,
        heap (now a2) !! category_loc Syn = Some (ObjSimpleWordCache c2)
        /\ SimpleWordCache.map c2 !! Some "happy" = Some [])
  /\ waiting a2 = waiting a.
Proof.
  intros api.
  apply (overlapping_lookups_last_answer_wins api [] 0%nat Syn "happy" 1
           ["glad"] [] 1%nat 2%nat);
    [vm_compute; reflexivity|lia|reflexivity|reflexivity].
Defined.
